(** * BTF-Dumper: the conversion of a BTF type graph to exported nodes

    A shallow embedding of [main.go]: the category lookup of a target
    specification, the resolution of type references to IDs, the per-category
    node converters with their dependency extractors, and the worklist
    traversal of [WalkForTargetTypes]. *)

From Stdlib Require Import ZArith NArith List String Ascii Lia.
From stdpp Require Import base option list gmap strings pretty fin_maps fin_sets.

Local Open Scope string_scope.
Local Open Scope list_scope.
Local Open Scope N_scope.

(** ** Panics

    A Go function that panics returns no value; the embedding returns
    [Panic] with the value handed to [panic]. *)

Inductive error :=
  | ErrTypeByName       (* the error of reader.TypeByName *)
  | ErrAnyTypeByName    (* the error of reader.AnyTypeByName *)
  | ErrUnknownType.     (* fmt.Errorf("unknown type %v", btfType) *)

Inductive panicValue :=
  | panic_string (msg : string)
  | panic_error (err : error).

Inductive result (A : Type) :=
  | Ok (a : A)
  | Panic (p : panicValue).
Arguments Ok {A} a.
Arguments Panic {A} p.

Definition is_Ok {A} (r : result A) : Prop :=
  match r with Ok _ => True | Panic _ => False end.

(** ** The strings package *)

Module strings.

(** The ASCII white space of [strings.TrimSpace]: tab, line feed, vertical
    tab, form feed, carriage return and space.  Bytes from 0x80 on are
    kept: the Unicode white space the library also trims is not part of
    this model. *)
Definition asciiSpace (c : ascii) : bool :=
  match N_of_ascii c with
  | 9 | 10 | 11 | 12 | 13 | 32 => true
  | _ => false
  end.

Fixpoint trimLeft (s : string) : string :=
  match s with
  | EmptyString => EmptyString
  | String c s' => if asciiSpace c then trimLeft s' else s
  end.

Fixpoint trimRight (s : string) : string :=
  match s with
  | EmptyString => EmptyString
  | String c s' =>
      match trimRight s' with
      | EmptyString => if asciiSpace c then EmptyString else String c EmptyString
      | r => String c r
      end
  end.

Definition TrimSpace (s : string) : string := trimRight (trimLeft s).

(** [strings.Cut s sep]: the text before and after the first instance of
    [sep], and whether [sep] occurs; all of [s], the empty string and [false]
    when it does not. *)
Fixpoint Cut (s sep : string) : string * string * bool :=
  if String.prefix sep s
  then (EmptyString,
        String.substring (String.length sep)
          (String.length s - String.length sep) s, true)
  else match s with
       | EmptyString => (EmptyString, EmptyString, false)
       | String c s' =>
           let '(before, after, found) := Cut s' sep in
           (String c before, after, found)
       end.

End strings.

(** ** The btf package: the type store

    A [btf.Type] value is a pointer to a node.  The nodes of a loaded
    [btf.Spec] sit in its type table, and the position of a node in that
    table is its [TypeID]; a pointer is represented by the position it points
    at.  A pointer to a node that is not in the table (such as the marker
    [UnderlyingType] returns for a chain it gives up on) is a position past
    the end of the table. *)

Module btf.

(** A [TypeID] is a uint32 in Go: the conversions [uint32(id)] of main.go
    leave it as it is and are not written. *)
Definition TypeID := N.
Definition TypeRef := N.

Record Member := {
  Member_Name : string;
  Member_Type : TypeRef;
  Member_Offset : N;          (* in bits *)
  Member_BitfieldSize : N     (* in bits *)
}.

Record EnumValue := {
  EnumValue_Name : string;
  EnumValue_Value : N
}.

Record FuncParam := {
  FuncParam_Name : string;
  FuncParam_Type : TypeRef
}.

Record VarSecinfo := {
  VarSecinfo_Type : TypeRef;
  VarSecinfo_Offset : N;
  VarSecinfo_Size : N
}.

(** The seventeen node types.  [Encoding], [Kind] and [Linkage] hold the
    text their [String] method returns, which is all the converters read. *)
Inductive Node :=
  | Void
  | Int (Name : string) (Size : N) (Encoding : string)
  | Pointer (Target : TypeRef)
  | Array (Index : TypeRef) (Elem : TypeRef) (Nelems : N)
  | Struct (Name : string) (Size : N) (Members : list Member)
  | Union (Name : string) (Size : N) (Members : list Member)
  | Enum (Name : string) (Size : N) (Signed : bool) (Values : list EnumValue)
  | Fwd (Name : string) (Kind : string)
  | Typedef (Name : string) (Inner : TypeRef)
  | Volatile (Inner : TypeRef)
  | Const (Inner : TypeRef)
  | Restrict (Inner : TypeRef)
  | Func (Name : string) (Proto : TypeRef) (Linkage : string)
  | FuncProto (Return : TypeRef) (Params : list FuncParam)
  | Var (Name : string) (Inner : TypeRef) (Linkage : string)
  | Datasec (Name : string) (Size : N) (Vars : list VarSecinfo)
  | Float (Name : string) (Size : N).

(** The reader: its type table, and what main.go calls of the library on
    it.  The two searches by name and [Sizeof] are taken as they come, with
    [None] for an error; [TypeByName] receives the zero-valued node whose Go
    type narrows the search. *)
Record Spec := {
  types : list Node;
  AnyTypeByName : string -> option TypeRef;
  TypeByName : string -> Node -> option TypeRef;
  Sizeof : TypeRef -> option Z
}.

(** The node a pointer points at, if it is one of the table. *)
Definition deref (s : Spec) (t : TypeRef) : option Node :=
  types s !! N.to_nat t.

(** [Spec.TypeByID], the reader's lookup by ID: the node at that position of
    the table, [None] for its error. *)
Definition TypeByID (s : Spec) (id : TypeID) : option Node :=
  types s !! N.to_nat id.

(** [Spec.TypeID], the reader's ID of a node: void has ID 0 whatever pointer
    it is reached by, a node of the table has its position, and any other
    pointer has no ID ([None] for the error). *)
Definition TypeID_of (s : Spec) (t : TypeRef) : option TypeID :=
  match deref s t with
  | Some Void => Some 0
  | Some _ => Some t
  | None => None
  end.

Definition isWrapper (n : Node) : option TypeRef :=
  match n with
  | Typedef _ inner | Volatile inner | Const inner | Restrict inner =>
      Some inner
  | _ => None
  end.

(** The pointer [UnderlyingType] returns when it gives up on a chain: no
    node of the table. *)
Definition cycle (s : Spec) : TypeRef := N.of_nat (length (types s)).

(** The loop of [UnderlyingType], cut after [depth] wrappers. *)
Fixpoint underlying (s : Spec) (depth : nat) (t : TypeRef) : TypeRef :=
  match deref s t ≫= isWrapper with
  | Some inner =>
      match depth with
      | O => cycle s
      | S depth' => underlying s depth' inner
      end
  | None => t
  end.

(** Modelled from the spec: [btf.UnderlyingType], a function of the reader
    library that main.go calls and does not define.  It strips const,
    volatile, restrict and typedef wrappers by following their inner
    reference until a node of another category is reached.  A chain that
    ends passes each node of the table at most once, so the walk is cut
    after as many steps as the table has nodes. *)
Definition UnderlyingType (s : Spec) (t : TypeRef) : TypeRef :=
  underlying s (length (types s)) t.

End btf.

(** ** main.go *)

Definition badCategoryMessage : string :=
  "type must be one of void, int, pointer, array, struct, union, enum, fwd, typedef, volatile, restrict, func, funcproto, var, Datasec, Float".

(** [NameToBTFType]: the zero-valued node of the named category. *)
Definition NameToBTFType (name : string) : result btf.Node :=
  let name := strings.TrimSpace name in
  if String.eqb name "void" then Ok btf.Void
  else if String.eqb name "int" then Ok (btf.Int EmptyString 0 EmptyString)
  else if String.eqb name "pointer" then Ok (btf.Pointer 0)
  else if String.eqb name "array" then Ok (btf.Array 0 0 0)
  else if String.eqb name "struct" then Ok (btf.Struct EmptyString 0 [])
  else if String.eqb name "union" then Ok (btf.Union EmptyString 0 [])
  else if String.eqb name "enum" then Ok (btf.Enum EmptyString 0 false [])
  else if String.eqb name "fwd" then Ok (btf.Fwd EmptyString EmptyString)
  else if String.eqb name "typedef" then Ok (btf.Typedef EmptyString 0)
  else if String.eqb name "volatile" then Ok (btf.Volatile 0)
  else if String.eqb name "restrict" then Ok (btf.Restrict 0)
  else if String.eqb name "func" then Ok (btf.Func EmptyString 0 EmptyString)
  else if String.eqb name "funcproto" then Ok (btf.FuncProto 0 [])
  else if String.eqb name "var" then Ok (btf.Var EmptyString 0 EmptyString)
  else if String.eqb name "Datasec" then Ok (btf.Datasec EmptyString 0 [])
  else if String.eqb name "Float" then Ok (btf.Float EmptyString 0)
  else Panic (panic_string badCategoryMessage).

(** The package-level variables every function of main.go reads: the loaded
    reader and the flags.  ([isVerbose] only prints and is left out.) *)
Record Globals := {
  reader : btf.Spec;
  isDereference : bool;
  isAsMap : bool
}.

(** *** The exported nodes

    A slice or map field that Go leaves [nil] is [None]. *)

Record BTFVoid := { BTFVoid_TypeName : string }.

Record BTFInt := {
  BTFInt_TypeName : string;
  BTFInt_Name : string;
  BTFInt_Size : N;
  BTFInt_Encoding : string
}.

Record BTFPointer := {
  BTFPointer_TypeName : string;
  BTFPointer_TargetType : N
}.

Record BTFArray := {
  BTFArray_TypeName : string;
  BTFArray_IndexType : N;
  BTFArray_ElemType : N;
  BTFArray_Count : N
}.

Record BTFStructMember := {
  BTFStructMember_Name : string;
  BTFStructMember_Type : N;
  BTFStructMember_Offset : N;
  BTFStructMember_BitFieldSize : N;
  BTFStructMember_Size : Z
}.

Record BTFStruct := {
  BTFStruct_TypeName : string;
  BTFStruct_Size : N;
  BTFStruct_Name : string;
  BTFStruct_MembersMap : option (gmap string BTFStructMember);
  BTFStruct_Members : option (list BTFStructMember)
}.

Record BTFUnion := {
  BTFUnion_TypeName : string;
  BTFUnion_Size : N;
  BTFUnion_Name : string;
  BTFUnion_MembersMap : option (gmap string BTFStructMember);
  BTFUnion_Members : option (list BTFStructMember)
}.

Record BTFEnumValue := {
  BTFEnumValue_Name : string;
  BTFEnumValue_Value : N
}.

Record BTFEnum := {
  BTFEnum_TypeName : string;
  BTFEnum_Name : string;
  BTFEnum_Size : N;
  BTFEnum_Signed : bool;
  BTFEnum_ValuesMap : option (gmap N BTFEnumValue);
  BTFEnum_Values : option (list BTFEnumValue)
}.

Record BTFFwd := {
  BTFFwd_TypeName : string;
  BTFFwd_Name : string;
  BTFFwd_Kind : string
}.

Record BTFTypeDef := {
  BTFTypeDef_TypeName : string;
  BTFTypeDef_Name : string;
  BTFTypeDef_Type : N
}.

Record BTFVolatile := { BTFVolatile_TypeName : string; BTFVolatile_Type : N }.
Record BTFConst := { BTFConst_TypeName : string; BTFConst_Type : N }.
Record BTFRestrict := { BTFRestrict_TypeName : string; BTFRestrict_Type : N }.

Record BTFFunc := {
  BTFFunc_TypeName : string;
  BTFFunc_Name : string;
  BTFFunc_Type : N;
  BTFFunc_Linkage : string
}.

Record BTFFuncParam := { BTFFuncParam_Name : string; BTFFuncParam_Type : N }.

Record BTFFuncProto := {
  BTFFuncProto_TypeName : string;
  BTFFuncProto_Return : N;
  BTFFuncProto_Params : list BTFFuncParam
}.

Record BTFVar := {
  BTFVar_TypeName : string;
  BTFVar_Name : string;
  BTFVar_Type : N;
  BTFVar_Linkage : string
}.

Record BTFVarSecInfo := {
  BTFVarSecInfo_Type : N;
  BTFVarSecInfo_Offset : N;
  BTFVarSecInfo_Size : N
}.

Record BTFDatasec := {
  BTFDatasec_TypeName : string;
  BTFDatasec_Name : string;
  BTFDatasec_Size : N;
  BTFDatasec_Vars : list BTFVarSecInfo
}.

Record BTFFloat := {
  BTFFloat_TypeName : string;
  BTFFloat_Name : string;
  BTFFloat_Size : N
}.

(** The interface [BTFType]: one of the seventeen exported node types. *)
Inductive BTFType :=
  | IsBTFVoid (v : BTFVoid)
  | IsBTFInt (v : BTFInt)
  | IsBTFPointer (v : BTFPointer)
  | IsBTFArray (v : BTFArray)
  | IsBTFStruct (v : BTFStruct)
  | IsBTFUnion (v : BTFUnion)
  | IsBTFEnum (v : BTFEnum)
  | IsBTFFwd (v : BTFFwd)
  | IsBTFTypeDef (v : BTFTypeDef)
  | IsBTFVolatile (v : BTFVolatile)
  | IsBTFConst (v : BTFConst)
  | IsBTFRestrict (v : BTFRestrict)
  | IsBTFFunc (v : BTFFunc)
  | IsBTFFuncProto (v : BTFFuncProto)
  | IsBTFVar (v : BTFVar)
  | IsBTFDatasec (v : BTFDatasec)
  | IsBTFFloat (v : BTFFloat).

(** [for _, i := range m] over a Go map visits the entries in an order the
    language leaves open, and which may change from one loop to the next.
    [order] picks the order of one loop among the permutations of the
    entries. *)
Definition rangeMap {A} (order : nat) (m : gmap string A) : list (string * A) :=
  let entries := map_to_list m in
  default entries (permutations entries !! order).

Section main.

Variable G : Globals.

(** [id, _ := reader.TypeID(t)]: the error is dropped, and with it comes
    the zero ID. *)
Definition reader_TypeID (t : btf.TypeRef) : N :=
  default 0 (btf.TypeID_of (reader G) t).

Definition GetTypeID (t : btf.TypeRef) : N :=
  if isDereference G then
    let t := btf.UnderlyingType (reader G) t in
    reader_TypeID t
  else
    reader_TypeID t.

Definition BTFVoidParser : BTFVoid := {| BTFVoid_TypeName := "void" |}.

Definition BTFIntParser (Name : string) (Size : N) (Encoding : string) : BTFInt :=
  {| BTFInt_TypeName := "int"; BTFInt_Name := Name; BTFInt_Size := Size;
     BTFInt_Encoding := Encoding |}.

Definition BTFPointerParser (Target : btf.TypeRef) : BTFPointer :=
  let typeID := GetTypeID Target in
  {| BTFPointer_TypeName := "pointer"; BTFPointer_TargetType := typeID |}.

Definition BTFArrayParser (Index Elem : btf.TypeRef) (Nelems : N) : BTFArray :=
  let indexTypeID := GetTypeID Index in
  let elemTypeID := GetTypeID Elem in
  {| BTFArray_TypeName := "array"; BTFArray_IndexType := indexTypeID;
     BTFArray_ElemType := elemTypeID; BTFArray_Count := Nelems |}.

(** The body of the member loop of [BTFStructParser] and
    [BTFUnionParser]. *)
Definition newStructMember (member : btf.Member) : BTFStructMember :=
  let memberTypeID := GetTypeID (btf.Member_Type member) in
  let size := default 0%Z (btf.Sizeof (reader G) (btf.Member_Type member)) in
  {| BTFStructMember_Name := btf.Member_Name member;
     BTFStructMember_Type := memberTypeID;
     BTFStructMember_Offset := btf.Member_Offset member / 8;
     BTFStructMember_BitFieldSize := btf.Member_BitfieldSize member;
     BTFStructMember_Size := size |}.

Definition memberLoop (Members : list btf.Member)
  : gmap string BTFStructMember * list BTFStructMember :=
  fold_left
    (fun '(membersMap, members) member =>
       let btfMember := newStructMember member in
       (<[btf.Member_Name member := btfMember]> membersMap,
        members ++ [btfMember]))
    Members (∅, []).

Definition BTFStructParser (Name : string) (Size : N)
    (Members : list btf.Member) : BTFStruct :=
  let '(membersMap, members) := memberLoop Members in
  if isAsMap G then
    {| BTFStruct_TypeName := "struct"; BTFStruct_Size := Size;
       BTFStruct_Name := Name;
       BTFStruct_MembersMap := Some membersMap; BTFStruct_Members := None |}
  else
    {| BTFStruct_TypeName := "struct"; BTFStruct_Size := Size;
       BTFStruct_Name := Name;
       BTFStruct_MembersMap := None; BTFStruct_Members := Some members |}.

Definition BTFUnionParser (Name : string) (Size : N)
    (Members : list btf.Member) : BTFUnion :=
  let '(membersMap, members) := memberLoop Members in
  if isAsMap G then
    {| BTFUnion_TypeName := "union"; BTFUnion_Size := Size;
       BTFUnion_Name := Name;
       BTFUnion_MembersMap := Some membersMap; BTFUnion_Members := None |}
  else
    {| BTFUnion_TypeName := "union"; BTFUnion_Size := Size;
       BTFUnion_Name := Name;
       BTFUnion_MembersMap := None; BTFUnion_Members := Some members |}.

Definition newEnumValue (value : btf.EnumValue) : BTFEnumValue :=
  {| BTFEnumValue_Name := btf.EnumValue_Name value;
     BTFEnumValue_Value := btf.EnumValue_Value value |}.

Definition valueLoop (Values : list btf.EnumValue)
  : gmap N BTFEnumValue * list BTFEnumValue :=
  fold_left
    (fun '(valuesMap, values) value =>
       let btfValue := newEnumValue value in
       (<[btf.EnumValue_Value value := btfValue]> valuesMap,
        values ++ [btfValue]))
    Values (∅, []).

Definition BTFEnumParser (Name : string) (Size : N) (Signed : bool)
    (Values : list btf.EnumValue) : BTFEnum :=
  let '(valuesMap, values) := valueLoop Values in
  if isAsMap G then
    {| BTFEnum_TypeName := "enum"; BTFEnum_Name := Name; BTFEnum_Size := Size;
       BTFEnum_Signed := Signed;
       BTFEnum_ValuesMap := Some valuesMap; BTFEnum_Values := None |}
  else
    {| BTFEnum_TypeName := "enum"; BTFEnum_Name := Name; BTFEnum_Size := Size;
       BTFEnum_Signed := Signed;
       BTFEnum_ValuesMap := None; BTFEnum_Values := Some values |}.

Definition BTFFwdParser (Name Kind : string) : BTFFwd :=
  {| BTFFwd_TypeName := "fwd"; BTFFwd_Name := Name; BTFFwd_Kind := Kind |}.

Definition BTFTypeDefParser (Name : string) (Inner : btf.TypeRef) : BTFTypeDef :=
  let typeID := GetTypeID Inner in
  {| BTFTypeDef_TypeName := "typedef"; BTFTypeDef_Name := Name;
     BTFTypeDef_Type := typeID |}.

Definition BTFVolatileParser (Inner : btf.TypeRef) : BTFVolatile :=
  let typeID := GetTypeID Inner in
  {| BTFVolatile_TypeName := "volatile"; BTFVolatile_Type := typeID |}.

Definition BTFConstParser (Inner : btf.TypeRef) : BTFConst :=
  let typeID := GetTypeID Inner in
  {| BTFConst_TypeName := "const"; BTFConst_Type := typeID |}.

Definition BTFRestrictParser (Inner : btf.TypeRef) : BTFRestrict :=
  let typeID := GetTypeID Inner in
  {| BTFRestrict_TypeName := "restrict"; BTFRestrict_Type := typeID |}.

Definition BTFFuncParser (Name : string) (Proto : btf.TypeRef)
    (Linkage : string) : BTFFunc :=
  let typeID := GetTypeID Proto in
  {| BTFFunc_TypeName := "func"; BTFFunc_Name := Name; BTFFunc_Type := typeID;
     BTFFunc_Linkage := Linkage |}.

Definition BTFFuncProtoParser (Return : btf.TypeRef)
    (Params : list btf.FuncParam) : BTFFuncProto :=
  let returnTypeID := GetTypeID Return in
  let btfFuncParams :=
    fold_left
      (fun btfFuncParams param =>
         let paramTypeID := GetTypeID (btf.FuncParam_Type param) in
         btfFuncParams ++
           [ {| BTFFuncParam_Name := btf.FuncParam_Name param;
                BTFFuncParam_Type := paramTypeID |} ])
      Params [] in
  {| BTFFuncProto_TypeName := "funcproto"; BTFFuncProto_Return := returnTypeID;
     BTFFuncProto_Params := btfFuncParams |}.

Definition BTFVarParser (Name : string) (Inner : btf.TypeRef)
    (Linkage : string) : BTFVar :=
  let TypeID := GetTypeID Inner in
  {| BTFVar_TypeName := "var"; BTFVar_Name := Name; BTFVar_Type := TypeID;
     BTFVar_Linkage := Linkage |}.

Definition BTFDatasecParser (Name : string) (Size : N)
    (Vars : list btf.VarSecinfo) : BTFDatasec :=
  let btfVarSecInfos :=
    fold_left
      (fun btfVarSecInfos varSecInfo =>
         let TypeID := GetTypeID (btf.VarSecinfo_Type varSecInfo) in
         btfVarSecInfos ++
           [ {| BTFVarSecInfo_Type := TypeID;
                BTFVarSecInfo_Offset := btf.VarSecinfo_Offset varSecInfo;
                BTFVarSecInfo_Size := btf.VarSecinfo_Size varSecInfo |} ])
      Vars [] in
  {| BTFDatasec_TypeName := "datasec"; BTFDatasec_Name := Name;
     BTFDatasec_Size := Size; BTFDatasec_Vars := btfVarSecInfos |}.

Definition BTFFloatParser (Name : string) (Size : N) : BTFFloat :=
  {| BTFFloat_TypeName := "float"; BTFFloat_Name := Name;
     BTFFloat_Size := Size |}.

(** [BTFTypeParser]: the type switch.  Its default case, reached with the
    nil type of a failed [TypeByID], is in [WalkForTargetTypes]. *)
Definition BTFTypeParser (t : btf.Node) : BTFType :=
  match t with
  | btf.Void => IsBTFVoid BTFVoidParser
  | btf.Int Name Size Encoding => IsBTFInt (BTFIntParser Name Size Encoding)
  | btf.Pointer Target => IsBTFPointer (BTFPointerParser Target)
  | btf.Array Index Elem Nelems => IsBTFArray (BTFArrayParser Index Elem Nelems)
  | btf.Struct Name Size Members => IsBTFStruct (BTFStructParser Name Size Members)
  | btf.Union Name Size Members => IsBTFUnion (BTFUnionParser Name Size Members)
  | btf.Enum Name Size Signed Values =>
      IsBTFEnum (BTFEnumParser Name Size Signed Values)
  | btf.Fwd Name Kind => IsBTFFwd (BTFFwdParser Name Kind)
  | btf.Typedef Name Inner => IsBTFTypeDef (BTFTypeDefParser Name Inner)
  | btf.Volatile Inner => IsBTFVolatile (BTFVolatileParser Inner)
  | btf.Const Inner => IsBTFConst (BTFConstParser Inner)
  | btf.Restrict Inner => IsBTFRestrict (BTFRestrictParser Inner)
  | btf.Func Name Proto Linkage => IsBTFFunc (BTFFuncParser Name Proto Linkage)
  | btf.FuncProto Return Params =>
      IsBTFFuncProto (BTFFuncProtoParser Return Params)
  | btf.Var Name Inner Linkage => IsBTFVar (BTFVarParser Name Inner Linkage)
  | btf.Datasec Name Size Vars => IsBTFDatasec (BTFDatasecParser Name Size Vars)
  | btf.Float Name Size => IsBTFFloat (BTFFloatParser Name Size)
  end.

(** *** The dependency extractors *)

Definition BTFArray_GetDependencies (v : BTFArray) : list N :=
  [BTFArray_IndexType v; BTFArray_IndexType v].

(** The two loops of [BTFStruct.GetDependencies] and
    [BTFUnion.GetDependencies]; ranging over a nil map or slice does
    nothing. *)
Definition membersDependencies (order : nat)
    (MembersMap : option (gmap string BTFStructMember))
    (Members : option (list BTFStructMember)) : list N :=
  if isAsMap G then
    fold_left (fun deps '(_, i) => deps ++ [BTFStructMember_Type i])
      (rangeMap order (default ∅ MembersMap)) []
  else
    fold_left (fun deps i => deps ++ [BTFStructMember_Type i])
      (default [] Members) [].

Definition BTFStruct_GetDependencies (order : nat) (v : BTFStruct) : list N :=
  membersDependencies order (BTFStruct_MembersMap v) (BTFStruct_Members v).

Definition BTFUnion_GetDependencies (order : nat) (v : BTFUnion) : list N :=
  membersDependencies order (BTFUnion_MembersMap v) (BTFUnion_Members v).

Definition BTFFuncProto_GetDependencies (v : BTFFuncProto) : list N :=
  fold_left (fun deps i => deps ++ [BTFFuncParam_Type i])
    (BTFFuncProto_Params v) ([] ++ [BTFFuncProto_Return v]).

Definition BTFDatasec_GetDependencies (v : BTFDatasec) : list N :=
  fold_left (fun deps i => deps ++ [BTFVarSecInfo_Type i])
    (BTFDatasec_Vars v) [].

(** The method [GetDependencies] of the interface. *)
Definition GetDependencies (order : nat) (v : BTFType) : list N :=
  match v with
  | IsBTFVoid _ | IsBTFInt _ | IsBTFEnum _ | IsBTFFwd _ | IsBTFFloat _ => []
  | IsBTFPointer v => [BTFPointer_TargetType v]
  | IsBTFArray v => BTFArray_GetDependencies v
  | IsBTFStruct v => BTFStruct_GetDependencies order v
  | IsBTFUnion v => BTFUnion_GetDependencies order v
  | IsBTFTypeDef v => [BTFTypeDef_Type v]
  | IsBTFVolatile v => [BTFVolatile_Type v]
  | IsBTFConst v => [BTFConst_Type v]
  | IsBTFRestrict v => [BTFRestrict_Type v]
  | IsBTFFunc v => [BTFFunc_Type v]
  | IsBTFFuncProto v => BTFFuncProto_GetDependencies v
  | IsBTFVar v => [BTFVar_Type v]
  | IsBTFDatasec v => BTFDatasec_GetDependencies v
  end.

(** *** The traversal *)

(** The body of the first loop of [WalkForTargetTypes]: the node a target
    names. *)
Definition findTarget (name : string) : result btf.TypeRef :=
  let name := strings.TrimSpace name in
  let '(a, b, success) := strings.Cut name ":" in
  if success then
    match NameToBTFType a with
    | Panic p => Panic p
    | Ok found =>
        match btf.TypeByName (reader G) b found with
        | None => Panic (panic_error ErrTypeByName)
        | Some found => Ok found
        end
    end
  else
    match btf.AnyTypeByName (reader G) name with
    | None => Panic (panic_error ErrAnyTypeByName)
    | Some found => Ok found
    end.

Fixpoint targetLoop (targetTypes : list string) (queue : list N)
  : result (list N) :=
  match targetTypes with
  | [] => Ok queue
  | name :: targetTypes' =>
      match findTarget name with
      | Panic p => Panic p
      | Ok found =>
          let foundID := reader_TypeID found in
          targetLoop targetTypes' (queue ++ [foundID])
      end
  end.

(** [for _, dep := range deps]: a dependency that is no key of [results]
    goes to the back of the queue. *)
Definition enqueueLoop (results : gmap N BTFType) (deps queue : list N)
  : list N :=
  fold_left
    (fun queue dep =>
       match results !! dep with
       | Some _ => queue
       | None => queue ++ [dep]
       end)
    deps queue.

(** [for len(queue) != 0].  [fuel] bounds the number of iterations and
    [None] is a loop cut short by it.  [calls] is a ghost variable: the IDs
    whose node was handed to [BTFTypeParser], latest last.  The map order
    of the [GetDependencies] call of an iteration is [orders] at the
    number of that iteration. *)
Fixpoint queueLoop (fuel : nat) (orders : nat -> nat) (queue : list N)
    (results : gmap N BTFType) (calls : list N)
  : option (result (gmap N BTFType * list N)) :=
  match queue with
  | [] => Some (Ok (results, calls))
  | i :: queue =>
      match fuel with
      | O => None
      | S fuel =>
          match btf.TypeByID (reader G) i with
          | None => Some (Panic (panic_error ErrUnknownType))
          | Some currentType =>
              let convertedType := BTFTypeParser currentType in
              let results := <[i := convertedType]> results in
              let deps := GetDependencies (orders (length calls)) convertedType in
              queueLoop fuel orders (enqueueLoop results deps queue) results
                (calls ++ [i])
          end
      end
  end.

(** [WalkForTargetTypes], with the ghost log of converter calls next to
    the mapping it returns. *)
Definition WalkForTargetTypes_calls (fuel : nat) (orders : nat -> nat)
    (targetTypes : list string)
  : option (result (gmap N BTFType * list N)) :=
  match targetLoop targetTypes [] with
  | Panic p => Some (Panic p)
  | Ok queue => queueLoop fuel orders queue ∅ []
  end.

Definition WalkForTargetTypes (fuel : nat) (orders : nat -> nat)
    (targetTypes : list string) : option (result (gmap N BTFType)) :=
  match WalkForTargetTypes_calls fuel orders targetTypes with
  | None => None
  | Some (Panic p) => Some (Panic p)
  | Some (Ok (results, _)) => Some (Ok results)
  end.

(** [ReadAllBTFType]: every node of the table in order. *)
Definition ReadAllBTFType : list BTFType :=
  fold_left (fun types t => types ++ [BTFTypeParser t])
    (btf.types (reader G)) [].

End main.

(** ** Sample stores *)

Module Sample.

Definition member (name : string) (type : N) : btf.Member :=
  {| btf.Member_Name := name; btf.Member_Type := type;
     btf.Member_Offset := 0; btf.Member_BitfieldSize := 0 |}.

Definition value (name : string) (v : N) : btf.EnumValue :=
  {| btf.EnumValue_Name := name; btf.EnumValue_Value := v |}.


Definition nodeName (n : btf.Node) : string :=
  match n with
  | btf.Int Name _ _ | btf.Struct Name _ _ | btf.Union Name _ _
  | btf.Enum Name _ _ _ | btf.Fwd Name _ | btf.Typedef Name _
  | btf.Func Name _ _ | btf.Var Name _ _ | btf.Datasec Name _ _
  | btf.Float Name _ => Name
  | _ => EmptyString
  end.

Definition sameCategory (a b : btf.Node) : bool :=
  match a, b with
  | btf.Void, btf.Void | btf.Int _ _ _, btf.Int _ _ _
  | btf.Pointer _, btf.Pointer _ | btf.Array _ _ _, btf.Array _ _ _
  | btf.Struct _ _ _, btf.Struct _ _ _ | btf.Union _ _ _, btf.Union _ _ _
  | btf.Enum _ _ _ _, btf.Enum _ _ _ _ | btf.Fwd _ _, btf.Fwd _ _
  | btf.Typedef _ _, btf.Typedef _ _ | btf.Volatile _, btf.Volatile _
  | btf.Const _, btf.Const _ | btf.Restrict _, btf.Restrict _
  | btf.Func _ _ _, btf.Func _ _ _ | btf.FuncProto _ _, btf.FuncProto _ _
  | btf.Var _ _ _, btf.Var _ _ _ | btf.Datasec _ _ _, btf.Datasec _ _ _
  | btf.Float _ _, btf.Float _ _ => true
  | _, _ => false
  end.

(** The positions of the named nodes that pass [keep]. *)
Fixpoint search (keep : btf.Node -> bool) (name : string)
    (types : list btf.Node) (pos : N) : list N :=
  match types with
  | [] => []
  | t :: types' =>
      (if keep t && String.eqb (nodeName t) name && negb (String.eqb name EmptyString)
       then [pos] else []) ++ search keep name types' (pos + 1)
  end.

Definition unique (l : list N) : option N :=
  match l with [x] => Some x | _ => None end.

Definition sizeOf (types : list btf.Node) (t : btf.TypeRef) : option Z :=
  match types !! N.to_nat t with
  | Some (btf.Int _ Size _) | Some (btf.Float _ Size)
  | Some (btf.Struct _ Size _) | Some (btf.Union _ Size _)
  | Some (btf.Enum _ Size _ _) => Some (Z.of_N Size)
  | Some (btf.Pointer _) => Some 8%Z
  | _ => None
  end.

(** A reader over a type table: a search by name succeeds on exactly one
    match. *)
Definition spec (types : list btf.Node) : btf.Spec :=
  {| btf.types := types;
     btf.AnyTypeByName := fun name => unique (search (fun _ => true) name types 0);
     btf.TypeByName := fun name key => unique (search (sameCategory key) name types 0);
     btf.Sizeof := sizeOf types |}.

Definition globals (types : list btf.Node) (dereference asMap : bool) : Globals :=
  {| reader := spec types; isDereference := dereference; isAsMap := asMap |}.

(** The store of the scenario of the specification. *)
Definition foo : list btf.Node :=
  [ btf.Void;
    btf.Int "int" 4 "signed";
    btf.Struct "Foo" 6 [ member "v1" 1 ] ].

(** A struct of an int and a char. *)
Definition pair : list btf.Node :=
  [ btf.Void;
    btf.Int "int" 4 "signed";
    btf.Int "char" 1 "signed";
    btf.Struct "S" 8 [ member "a" 1; member "b" 2 ] ].

(** A pointer to a const int. *)
Definition constInt : list btf.Node :=
  [ btf.Void;
    btf.Int "int" 4 "signed";
    btf.Const 1;
    btf.Pointer 2 ].

(** An array of four int behind a typedef. *)
Definition arr : list btf.Node :=
  [ btf.Void;
    btf.Int "int" 4 "signed";
    btf.Int "__ARRAY_SIZE_TYPE__" 4 "unsigned";
    btf.Array 2 1 4;
    btf.Typedef "arr_t" 3 ].

End Sample.


(** The tokens [NameToBTFType] has a case for. *)
Definition categoryTokens : list string :=
  [ "void"; "int"; "pointer"; "array"; "struct"; "union"; "enum"; "fwd";
    "typedef"; "volatile"; "restrict"; "func"; "funcproto"; "var"; "Datasec";
    "Float" ].


(** ** Loops that fill a map and a list side by side

    The loops of the struct, union and enum converters insert each element
    under a key and append it to a list. *)
Definition keyedLoop {K : Type} `{Countable K} {A B : Type}
    (key : A -> K) (f : A -> B) (l : list A) (acc : gmap K B * list B)
  : gmap K B * list B :=
  fold_left
    (fun '(m, ms) a => (<[key a := f a]> m, ms ++ [f a])) l acc.

(** ** What the output carries *)

(** encoding/json writes a key of a [map[uint64]] as its decimal numeral. *)
Definition jsonKey (k : N) : string := pretty k.

(** A slice or map field tagged [omitempty] is written unless it is nil or
    has length zero. *)
Definition writtenList {A} (field : option (list A)) : bool :=
  match field with
  | Some l => negb (Nat.eqb (length l) 0)
  | None => false
  end.

Definition writtenMap {K : Type} `{Countable K} {A}
    (field : option (gmap K A)) : bool :=
  match field with
  | Some m => negb (Nat.eqb (size m) 0)
  | None => false
  end.

(** One shape is assigned and the other left nil, as the flag says; the
    assigned one is written when the node has a member or value. *)
Definition shapesOf {K : Type} `{Countable K} {A B} (asMap nonEmpty : bool)
    (l : option (list A)) (m : option (gmap K B)) : Prop :=
  (if asMap then l = None /\ is_Some m else is_Some l /\ m = None) /\
  writtenList l = negb asMap && nonEmpty /\
  writtenMap m = asMap && nonEmpty.

Definition nonEmpty {A} (l : list A) : bool := negb (Nat.eqb (length l) 0).

(** The values map as a map keyed by the declared names would be: every
    declared value sits under a key that reads as its name. *)
Definition keyedByName (Values : list btf.EnumValue) (v : BTFEnum) : Prop :=
  exists m, BTFEnum_ValuesMap v = Some m /\
    forall value, value ∈ Values ->
      exists k, jsonKey k = btf.EnumValue_Name value /\
                m !! k = Some (newEnumValue value).

(** ** Wrapper chains *)

(** [stripsN s n t t']: from [t], following the inner reference of [n]
    const, volatile, restrict or typedef nodes ends on [t'], the first
    pointer on the way that is no such node. *)
Inductive stripsN (s : btf.Spec) : nat -> btf.TypeRef -> btf.TypeRef -> Prop :=
  | stripsN_here t :
      btf.deref s t ≫= btf.isWrapper = None -> stripsN s 0 t t
  | stripsN_step n t inner t' :
      btf.deref s t ≫= btf.isWrapper = Some inner ->
      stripsN s n inner t' -> stripsN s (S n) t t'.

Definition stripsTo (s : btf.Spec) (t t' : btf.TypeRef) : Prop :=
  exists n, stripsN s n t t'.

(** ** The closure of a set of roots *)

(** [d] is in the Dependency Set of the converted node of ID [k].  (The order
    of a map loop does not change which IDs a call returns.) *)
Definition depends (G : Globals) (k d : N) : Prop :=
  exists t, btf.TypeByID (reader G) k = Some t /\
            d ∈ GetDependencies G 0 (BTFTypeParser G t).

Definition closed (G : Globals) (S : gset N) : Prop :=
  forall k d, k ∈ S -> depends G k d -> d ∈ S.

Inductive reachable (G : Globals) (roots : list N) : N -> Prop :=
  | reachable_root k : k ∈ roots -> reachable G roots k
  | reachable_step k d :
      reachable G roots k -> depends G k d -> reachable G roots d.

(** ** A measure of the work left to the traversal

    An entry of the queue whose ID is a key of the result only brings in
    entries whose ID is not; an entry whose ID is no key makes it one.  With
    [n] IDs of the table still no key, the first kind weighs as [n + 1] and
    the second as [n], each level outweighing as many entries of the level
    below as a node has dependencies. *)

Definition maxDeps (G : Globals) : nat :=
  max_list
    (map (fun t => length (GetDependencies G 0 (BTFTypeParser G t)))
       (btf.types (reader G))).

Fixpoint weightAt (K n : nat) : nat :=
  match n with
  | O => 1
  | S n => S K * weightAt K n
  end.

Definition validIDs (G : Globals) : gset N :=
  list_to_set (N.of_nat <$> seq 0 (length (btf.types (reader G)))).

Definition remaining (G : Globals) (results : gmap N BTFType) : nat :=
  size (validIDs G ∖ dom results).

Definition weight (G : Globals) (results : gmap N BTFType) (x : N) : nat :=
  weightAt (maxDeps G)
    (remaining G results + if decide (x ∈ dom results) then 1 else 0).

Definition measure (G : Globals) (queue : list N)
    (results : gmap N BTFType) : nat :=
  sum_list_with (weight G results) queue.

(** ** The invariant of the traversal loop *)

Record walkInv (G : Globals) (roots queue : list N)
    (results : gmap N BTFType) : Prop := {
  inv_value : forall k v, results !! k = Some v ->
    exists t, btf.TypeByID (reader G) k = Some t /\ v = BTFTypeParser G t;
  inv_deps : forall k d, k ∈ dom results -> depends G k d ->
    d ∈ dom results \/ d ∈ queue;
  inv_reach : forall k, k ∈ dom results \/ k ∈ queue -> reachable G roots k;
  inv_roots : forall k, k ∈ roots -> k ∈ dom results \/ k ∈ queue
}.

(** ** The type name of an exported node *)

(** The method [GetTypeName] of the interface: every implementation returns
    the field [TypeName] of its receiver. *)
Definition GetTypeName (v : BTFType) : string :=
  match v with
  | IsBTFVoid v => BTFVoid_TypeName v
  | IsBTFInt v => BTFInt_TypeName v
  | IsBTFPointer v => BTFPointer_TypeName v
  | IsBTFArray v => BTFArray_TypeName v
  | IsBTFStruct v => BTFStruct_TypeName v
  | IsBTFUnion v => BTFUnion_TypeName v
  | IsBTFEnum v => BTFEnum_TypeName v
  | IsBTFFwd v => BTFFwd_TypeName v
  | IsBTFTypeDef v => BTFTypeDef_TypeName v
  | IsBTFVolatile v => BTFVolatile_TypeName v
  | IsBTFConst v => BTFConst_TypeName v
  | IsBTFRestrict v => BTFRestrict_TypeName v
  | IsBTFFunc v => BTFFunc_TypeName v
  | IsBTFFuncProto v => BTFFuncProto_TypeName v
  | IsBTFVar v => BTFVar_TypeName v
  | IsBTFDatasec v => BTFDatasec_TypeName v
  | IsBTFFloat v => BTFFloat_TypeName v
  end.

(** ** The type IDs an exported node carries

    Every field of an exported node that holds a type ID, those of the
    members, parameters and variables included, whichever of the two shapes
    holds them. *)
Definition typeFields (v : BTFType) : list N :=
  match v with
  | IsBTFVoid _ | IsBTFInt _ | IsBTFEnum _ | IsBTFFwd _ | IsBTFFloat _ => []
  | IsBTFPointer v => [BTFPointer_TargetType v]
  | IsBTFArray v => [BTFArray_IndexType v; BTFArray_ElemType v]
  | IsBTFStruct v =>
      map BTFStructMember_Type (default [] (BTFStruct_Members v)) ++
      map (fun entry => BTFStructMember_Type entry.2)
        (map_to_list (default ∅ (BTFStruct_MembersMap v)))
  | IsBTFUnion v =>
      map BTFStructMember_Type (default [] (BTFUnion_Members v)) ++
      map (fun entry => BTFStructMember_Type entry.2)
        (map_to_list (default ∅ (BTFUnion_MembersMap v)))
  | IsBTFTypeDef v => [BTFTypeDef_Type v]
  | IsBTFVolatile v => [BTFVolatile_Type v]
  | IsBTFConst v => [BTFConst_Type v]
  | IsBTFRestrict v => [BTFRestrict_Type v]
  | IsBTFFunc v => [BTFFunc_Type v]
  | IsBTFFuncProto v =>
      BTFFuncProto_Return v :: map BTFFuncParam_Type (BTFFuncProto_Params v)
  | IsBTFVar v => [BTFVar_Type v]
  | IsBTFDatasec v => map BTFVarSecInfo_Type (BTFDatasec_Vars v)
  end.

(** The element type ID of an exported array node. *)
Definition isElemTypeOf (v : BTFType) (d : N) : Prop :=
  exists a, v = IsBTFArray a /\ d = BTFArray_ElemType a.

(** ** More sample stores *)

Module Sample2.

(** A struct with two members without a name, as anonymous unions and
    structs give, the first an int and the second a char. *)
Definition shadowed : list btf.Node :=
  [ btf.Void;
    btf.Int "int" 4 "signed";
    btf.Int "char" 1 "signed";
    btf.Struct "S" 8 [ Sample.member EmptyString 1; Sample.member EmptyString 2 ] ].

(** A pointer to a typedef of a const int, and a variable of that typedef. *)
Definition wrapped : list btf.Node :=
  [ btf.Void;
    btf.Int "int" 4 "signed";
    btf.Const 1;
    btf.Typedef "cint" 2;
    btf.Pointer 3;
    btf.Var "v" 4 "global" ].

End Sample2.
(** ** Category tokens *)

Lemma NameToBTFType_Ok_iff (name : string) :
  is_Ok (NameToBTFType name) <-> In (strings.TrimSpace name) categoryTokens.
Proof.
  unfold NameToBTFType, categoryTokens.
  generalize (strings.TrimSpace name). intros tok. simpl.
  repeat match goal with
         | |- context [String.eqb tok ?s] =>
             destruct (String.eqb_spec tok s) as [->|?]; [simpl; tauto|]
         end.
  simpl. intuition congruence.
Qed.

Lemma NameToBTFType_Panic (name : string) p :
  NameToBTFType name = Panic p -> p = panic_string badCategoryMessage.
Proof.
  unfold NameToBTFType.
  repeat match goal with
         | |- context [if ?b then _ else _] => destruct b; [discriminate|]
         end.
  congruence.
Qed.

(** C4: the category switch has no case for const, and spells two tokens
    with a capital: the tokens "const", "datasec" and "float" are refused
    with the bad-category panic, and so is a const target whatever the
    store. *)
Theorem NameToBTFType_const_refused :
  (NameToBTFType "const" = Panic (panic_string badCategoryMessage)) /\
  (NameToBTFType "datasec" = Panic (panic_string badCategoryMessage)) /\
  (NameToBTFType "float" = Panic (panic_string badCategoryMessage)) /\
  (forall G, findTarget G "const:foo" = Panic (panic_string badCategoryMessage)) /\
  (length categoryTokens = 16%nat) /\
  (forall name, is_Ok (NameToBTFType name) <->
                In (strings.TrimSpace name) categoryTokens).
Proof.
  repeat split; try reflexivity; apply NameToBTFType_Ok_iff.
Qed.

(** ** The loops that fill a map and a list *)

Section keyed_loop.

Context {K : Type} `{Countable K} {A B : Type}.
Variable key : A -> K.
Variable f : A -> B.

Lemma keyedLoop_snoc l a acc :
  keyedLoop key f (l ++ [a]) acc =
  (<[key a := f a]> (keyedLoop key f l acc).1, (keyedLoop key f l acc).2 ++ [f a]).
Proof.
  unfold keyedLoop. rewrite fold_left_app. simpl.
  destruct (fold_left _ l acc). reflexivity.
Qed.

Lemma keyedLoop_list l m0 l0 :
  (keyedLoop key f l (m0, l0)).2 = l0 ++ map f l.
Proof.
  induction l as [|a l IH] using rev_ind.
  - simpl. by rewrite app_nil_r.
  - rewrite keyedLoop_snoc. simpl. rewrite IH, map_app. simpl.
    by rewrite <- app_assoc.
Qed.

Lemma keyedLoop_lookup l m0 l0 k :
  (keyedLoop key f l (m0, l0)).1 !! k =
  match last (filter (fun a => key a = k) l) with
  | Some a => Some (f a)
  | None => m0 !! k
  end.
Proof.
  induction l as [|a l IH] using rev_ind.
  - reflexivity.
  - rewrite keyedLoop_snoc, filter_app. simpl.
    destruct (decide (key a = k)) as [Heq|Hne].
    + rewrite (filter_cons_True _ a []) by done.
      rewrite filter_nil, last_snoc. subst k. by rewrite lookup_insert_eq.
    + rewrite (filter_cons_False _ a []) by done.
      rewrite filter_nil, app_nil_r, lookup_insert_ne by done. exact IH.
Qed.

Lemma keyedLoop_dom l m0 l0 :
  dom (keyedLoop key f l (m0, l0)).1 = list_to_set (key <$> l) ∪ dom m0.
Proof.
  induction l as [|a l IH] using rev_ind.
  - simpl. set_solver.
  - rewrite keyedLoop_snoc. simpl. rewrite dom_insert_L, IH, fmap_app.
    simpl. rewrite list_to_set_app_L. set_solver.
Qed.

Lemma keyedLoop_empty l m0 l0 :
  (keyedLoop key f l (m0, l0)).1 = ∅ <-> l = [] /\ m0 = ∅.
Proof.
  split.
  - intros He. destruct l as [|a l] using rev_ind; [done|].
    rewrite keyedLoop_snoc in He. simpl in He.
    by apply insert_non_empty in He.
  - intros [-> ->]. reflexivity.
Qed.

End keyed_loop.

Lemma size_list_to_set_le `{Countable K} (l : list K) :
  (size (list_to_set l : gset K) <= length l)%nat.
Proof.
  induction l as [|x l IH].
  - rewrite list_to_set_nil, size_empty. simpl. lia.
  - rewrite list_to_set_cons. simpl length.
    destruct (decide (x ∈ l)) as [Hin|Hnin].
    + replace ({[x]} ∪ list_to_set l : gset K) with (list_to_set l : gset K)
        by set_solver.
      lia.
    + rewrite size_union by set_solver. rewrite size_singleton. lia.
Qed.

Lemma size_list_to_set_lt `{Countable K} (l : list K) :
  ~ NoDup l -> (size (list_to_set l : gset K) < length l)%nat.
Proof.
  induction l as [|x l IH]; intros Hdup.
  - destruct Hdup. constructor.
  - rewrite list_to_set_cons. simpl length.
    destruct (decide (x ∈ l)) as [Hin|Hnin].
    + replace ({[x]} ∪ list_to_set l : gset K) with (list_to_set l : gset K)
        by set_solver.
      pose proof (size_list_to_set_le l). lia.
    + rewrite size_union by set_solver. rewrite size_singleton.
      assert (~ NoDup l) as Hl by (intros Hnd; apply Hdup; by constructor).
      specialize (IH Hl). lia.
Qed.

Lemma memberLoop_keyedLoop G Members :
  memberLoop G Members =
  keyedLoop btf.Member_Name (newStructMember G) Members (∅, []).
Proof. reflexivity. Qed.

Lemma valueLoop_keyedLoop Values :
  valueLoop Values =
  keyedLoop btf.EnumValue_Value newEnumValue Values (∅, []).
Proof. reflexivity. Qed.

(** ** The two shapes of struct, union and enum nodes *)

Lemma BTFEnumParser_as_map G Name Size Signed Values :
  isAsMap G = true ->
  BTFEnum_ValuesMap (BTFEnumParser G Name Size Signed Values)
    = Some (valueLoop Values).1 /\
  BTFEnum_Values (BTFEnumParser G Name Size Signed Values) = None.
Proof.
  intros HG. unfold BTFEnumParser. destruct (valueLoop Values).
  rewrite HG. done.
Qed.

Lemma BTFStructParser_fields G Name Size Members :
  BTFStruct_MembersMap (BTFStructParser G Name Size Members)
    = (if isAsMap G then Some (memberLoop G Members).1 else None) /\
  BTFStruct_Members (BTFStructParser G Name Size Members)
    = (if isAsMap G then None else Some (map (newStructMember G) Members)).
Proof.
  unfold BTFStructParser.
  pose proof (keyedLoop_list btf.Member_Name (newStructMember G) Members ∅ [])
    as Hl.
  rewrite <- memberLoop_keyedLoop in Hl.
  destruct (memberLoop G Members). simpl in Hl. subst.
  by destruct (isAsMap G).
Qed.

Lemma BTFUnionParser_fields G Name Size Members :
  BTFUnion_MembersMap (BTFUnionParser G Name Size Members)
    = (if isAsMap G then Some (memberLoop G Members).1 else None) /\
  BTFUnion_Members (BTFUnionParser G Name Size Members)
    = (if isAsMap G then None else Some (map (newStructMember G) Members)).
Proof.
  unfold BTFUnionParser.
  pose proof (keyedLoop_list btf.Member_Name (newStructMember G) Members ∅ [])
    as Hl.
  rewrite <- memberLoop_keyedLoop in Hl.
  destruct (memberLoop G Members). simpl in Hl. subst.
  by destruct (isAsMap G).
Qed.

Lemma BTFEnumParser_fields G Name Size Signed Values :
  BTFEnum_ValuesMap (BTFEnumParser G Name Size Signed Values)
    = (if isAsMap G then Some (valueLoop Values).1 else None) /\
  BTFEnum_Values (BTFEnumParser G Name Size Signed Values)
    = (if isAsMap G then None else Some (map newEnumValue Values)).
Proof.
  unfold BTFEnumParser.
  pose proof (keyedLoop_list btf.EnumValue_Value newEnumValue Values ∅ [])
    as Hl.
  rewrite <- valueLoop_keyedLoop in Hl.
  destruct (valueLoop Values). simpl in Hl. subst.
  by destruct (isAsMap G).
Qed.

Lemma keyedLoop_size_zero {K : Type} `{Countable K} {A B : Type}
    (key : A -> K) (f : A -> B) (l : list A) :
  Nat.eqb (size (keyedLoop key f l (∅, [])).1) 0 = Nat.eqb (length l) 0.
Proof.
  destruct l as [|a l].
  - reflexivity.
  - simpl length. simpl Nat.eqb at 2.
    apply Nat.eqb_neq. intros Hz.
    apply map_size_empty_iff, keyedLoop_empty in Hz. by destruct Hz.
Qed.

Lemma shapesOf_loop {K : Type} `{Countable K} {A B : Type}
    (key : A -> K) (f : A -> B) (l : list A) (asMap : bool) :
  shapesOf asMap (nonEmpty l)
    (if asMap then None else Some (map f l))
    (if asMap then Some (keyedLoop key f l (∅, [])).1 else None).
Proof.
  unfold shapesOf, nonEmpty. destruct asMap; simpl.
  - rewrite keyedLoop_size_zero. eauto.
  - rewrite length_map. eauto.
Qed.

(** C3 (as the claim has it, refuted): the values map of the enum with the
    one value RED = 0 has the single key 0, which reads "0" and not "RED". *)
Lemma values_map_not_keyed_by_name :
  ~ (forall G Name Size Signed Values,
        isAsMap G = true ->
        keyedByName Values (BTFEnumParser G Name Size Signed Values)).
Proof.
  intros Hclaim.
  destruct (Hclaim (Sample.globals [] false true) "color" 4 false
              [Sample.value "RED" 0] eq_refl) as (m & Hm & Hkeys).
  destruct (Hkeys (Sample.value "RED" 0)) as (k & Hk & Hlook).
  { apply list_elem_of_singleton. reflexivity. }
  vm_compute in Hm. injection Hm as <-.
  destruct (decide (k = 0)) as [->|Hne].
  - vm_compute in Hk. discriminate.
  - change (({[ 0 := newEnumValue (Sample.value "RED" 0) ]}
              : gmap N BTFEnumValue) !! k = Some (newEnumValue (Sample.value "RED" 0)))
      in Hlook.
    rewrite lookup_singleton_ne in Hlook by done. discriminate.
Qed.

(** C3 (amended): with the as-map flag set, the values map of an enum node
    is keyed by the numeric value: under a number sits the entry of the last
    declared value with that number, carrying that value's name and the
    number itself, and every declared value has its number as a key; the
    list form is left nil. *)
Theorem values_map_keyed_by_value G Name Size Signed Values :
  isAsMap G = true ->
  exists m,
    BTFEnum_ValuesMap (BTFEnumParser G Name Size Signed Values) = Some m /\
    BTFEnum_Values (BTFEnumParser G Name Size Signed Values) = None /\
    (forall k,
        m !! k = newEnumValue <$>
                   last (filter (fun value => btf.EnumValue_Value value = k) Values)) /\
    (forall k e, m !! k = Some e -> BTFEnumValue_Value e = k) /\
    (forall value, value ∈ Values -> is_Some (m !! btf.EnumValue_Value value)).
Proof.
  intros HG. exists (valueLoop Values).1.
  destruct (BTFEnumParser_as_map G Name Size Signed Values HG) as [-> ->].
  assert (forall k, (valueLoop Values).1 !! k = newEnumValue <$>
            last (filter (fun value => btf.EnumValue_Value value = k) Values))
    as Hlook.
  { intros k. rewrite valueLoop_keyedLoop, keyedLoop_lookup.
    destruct (last _); by rewrite ?lookup_empty. }
  repeat split; [exact Hlook| |].
  - intros k e. rewrite Hlook.
    destruct (last _) as [value|] eqn:Hlast; [|discriminate].
    simpl. intros [= <-].
    apply last_Some_elem_of, list_elem_of_filter in Hlast. by destruct Hlast.
  - intros value Hin. rewrite Hlook.
    destruct (last _) eqn:Hlast; [by eexists|].
    apply last_None in Hlast.
    by pose proof (filter_nil_not_elem_of _ _ value Hlast eq_refl).
Qed.

Lemma values_map_keyed_by_value_witness :
  exists m,
    BTFEnum_ValuesMap
      (BTFEnumParser (Sample.globals [] false true) "color" 4 false
         [Sample.value "RED" 0; Sample.value "ROUGE" 0]) = Some m /\
    m !! 0 = Some {| BTFEnumValue_Name := "ROUGE"; BTFEnumValue_Value := 0 |}.
Proof.
  destruct (values_map_keyed_by_value (Sample.globals [] false true) "color" 4
              false [Sample.value "RED" 0; Sample.value "ROUGE" 0] eq_refl)
    as (m & Hm & _ & Hlook & _).
  exists m. split; [exact Hm|]. rewrite Hlook. reflexivity.
Defined.

(** C7 (as the claim has it, refuted): a struct without members converted
    with the flag unset gets the empty list, which [omitempty] drops like the
    nil map: the output carries neither shape. *)
Lemma empty_struct_has_neither_shape :
  ~ (forall G Name Size Members,
        xorb (writtenList (BTFStruct_Members (BTFStructParser G Name Size Members)))
             (writtenMap (BTFStruct_MembersMap (BTFStructParser G Name Size Members)))
        = true).
Proof.
  intros Hclaim.
  specialize (Hclaim (Sample.globals [] false false) "empty" 0 []).
  vm_compute in Hclaim. discriminate.
Qed.

(** C7 (amended): converting a struct, union or enum node assigns exactly
    one of the two fields and leaves the other nil, the map when the as-map
    flag is set and the list when it is not; the assigned shape is written to
    the output when the node has at least one member or value, and the
    other shape never is. *)
Theorem one_shape_assigned G Name Size Signed Members Values :
  shapesOf (isAsMap G) (nonEmpty Members)
    (BTFStruct_Members (BTFStructParser G Name Size Members))
    (BTFStruct_MembersMap (BTFStructParser G Name Size Members)) /\
  shapesOf (isAsMap G) (nonEmpty Members)
    (BTFUnion_Members (BTFUnionParser G Name Size Members))
    (BTFUnion_MembersMap (BTFUnionParser G Name Size Members)) /\
  shapesOf (isAsMap G) (nonEmpty Values)
    (BTFEnum_Values (BTFEnumParser G Name Size Signed Values))
    (BTFEnum_ValuesMap (BTFEnumParser G Name Size Signed Values)).
Proof.
  destruct (BTFStructParser_fields G Name Size Members) as [-> ->].
  destruct (BTFUnionParser_fields G Name Size Members) as [-> ->].
  destruct (BTFEnumParser_fields G Name Size Signed Values) as [-> ->].
  rewrite memberLoop_keyedLoop, valueLoop_keyedLoop.
  split; [|split]; apply shapesOf_loop.
Qed.

Lemma memberLoop_lookup G Members name :
  (memberLoop G Members).1 !! name =
  newStructMember G <$>
    last (filter (fun member => btf.Member_Name member = name) Members).
Proof.
  rewrite memberLoop_keyedLoop, keyedLoop_lookup.
  destruct (last _); by rewrite ?lookup_empty.
Qed.

Lemma memberLoop_size G Members :
  size (memberLoop G Members).1 =
  size (list_to_set (btf.Member_Name <$> Members) : gset string).
Proof.
  rewrite <- size_dom.
  rewrite memberLoop_keyedLoop, keyedLoop_dom, dom_empty_L.
  f_equal. set_solver.
Qed.

(** C10: with the as-map flag set, a struct or union node that has two
    members of one name gets a members map in which every name is bound to
    the projection of the last member declared with it, and which so has
    fewer entries than the node has members, the length of the list the same
    node gets with the flag unset. *)
Theorem members_map_last_write_wins G Name Size Members :
  isAsMap G = true ->
  ~ NoDup (btf.Member_Name <$> Members) ->
  exists m,
    BTFStruct_MembersMap (BTFStructParser G Name Size Members) = Some m /\
    BTFUnion_MembersMap (BTFUnionParser G Name Size Members) = Some m /\
    (forall name,
        m !! name =
        newStructMember G <$>
          last (filter (fun member => btf.Member_Name member = name) Members)) /\
    (forall G', isAsMap G' = false ->
        exists members,
          BTFStruct_Members (BTFStructParser G' Name Size Members) = Some members /\
          BTFUnion_Members (BTFUnionParser G' Name Size Members) = Some members /\
          (size m < length members)%nat).
Proof.
  intros HG Hdup. exists (memberLoop G Members).1.
  destruct (BTFStructParser_fields G Name Size Members) as [-> _].
  destruct (BTFUnionParser_fields G Name Size Members) as [-> _].
  rewrite HG. repeat split.
  - apply memberLoop_lookup.
  - intros G' HG'. exists (map (newStructMember G') Members).
    destruct (BTFStructParser_fields G' Name Size Members) as [_ ->].
    destruct (BTFUnionParser_fields G' Name Size Members) as [_ ->].
    rewrite HG'. repeat split.
    rewrite length_map, memberLoop_size.
    pose proof (size_list_to_set_lt _ Hdup) as Hlt.
    by rewrite length_fmap in Hlt.
Qed.

Lemma members_map_last_write_wins_witness :
  exists m,
    BTFStruct_MembersMap
      (BTFStructParser (Sample.globals Sample.pair false true) "S" 8
         [Sample.member EmptyString 1; Sample.member EmptyString 2]) = Some m /\
    m !! EmptyString = Some (newStructMember (Sample.globals Sample.pair false true)
                      (Sample.member EmptyString 2)) /\
    size m = 1%nat.
Proof.
  assert (~ NoDup (btf.Member_Name <$> [Sample.member EmptyString 1; Sample.member EmptyString 2]))
    as Hdup.
  { intros Hnd. apply NoDup_cons in Hnd as [Hnin _]. apply Hnin. simpl. left. }
  destruct (members_map_last_write_wins (Sample.globals Sample.pair false true)
              "S" 8 [Sample.member EmptyString 1; Sample.member EmptyString 2] eq_refl Hdup)
    as (m & Hm & _ & Hlook & Hsize).
  exists m. split; [exact Hm|]. split; [rewrite Hlook; reflexivity|].
  vm_compute in Hm. injection Hm as <-. reflexivity.
Defined.

(** ** The dependency extractors *)

Lemma fold_left_snoc_map {A B} (g : A -> B) (l : list A) (acc : list B) :
  fold_left (fun deps i => deps ++ [g i]) l acc = acc ++ map g l.
Proof.
  revert acc. induction l as [|a l IH]; intros acc; simpl.
  - by rewrite app_nil_r.
  - rewrite IH. by rewrite <- app_assoc.
Qed.

Lemma rangeMap_Permutation {A} order (m : gmap string A) :
  rangeMap order m ≡ₚ map_to_list m.
Proof.
  unfold rangeMap.
  destruct (permutations (map_to_list m) !! order) as [l|] eqn:Hl; simpl.
  - apply list_elem_of_lookup_2, permutations_Permutation in Hl. by symmetry.
  - reflexivity.
Qed.

Lemma fold_left_entries (l : list (string * BTFStructMember)) (acc : list N) :
  fold_left (fun deps '(_, i) => deps ++ [BTFStructMember_Type i]) l acc =
  acc ++ map (fun entry => BTFStructMember_Type entry.2) l.
Proof.
  revert acc. induction l as [|[name i] l IH]; intros acc; simpl.
  - by rewrite app_nil_r.
  - rewrite IH. by rewrite <- app_assoc.
Qed.

Lemma membersDependencies_as_map G order mm ms :
  isAsMap G = true ->
  membersDependencies G order mm ms =
  map (fun entry => BTFStructMember_Type entry.2) (rangeMap order (default ∅ mm)).
Proof.
  intros HG. unfold membersDependencies. rewrite HG.
  by rewrite fold_left_entries.
Qed.

Lemma membersDependencies_as_list G order mm ms :
  isAsMap G = false ->
  membersDependencies G order mm ms = map BTFStructMember_Type (default [] ms).
Proof.
  intros HG. unfold membersDependencies. rewrite HG.
  by rewrite fold_left_snoc_map.
Qed.

Lemma membersDependencies_Permutation G order1 order2 mm ms :
  membersDependencies G order1 mm ms ≡ₚ membersDependencies G order2 mm ms.
Proof.
  destruct (isAsMap G) eqn:HG.
  - rewrite !membersDependencies_as_map by done.
    apply Permutation_map. by rewrite !rangeMap_Permutation.
  - by rewrite !membersDependencies_as_list.
Qed.

Lemma GetDependencies_Permutation G order1 order2 v :
  GetDependencies G order1 v ≡ₚ GetDependencies G order2 v.
Proof.
  destruct v; simpl; try reflexivity; apply membersDependencies_Permutation.
Qed.

Lemma GetDependencies_elem_of G order1 order2 v d :
  d ∈ GetDependencies G order1 v <-> d ∈ GetDependencies G order2 v.
Proof. by rewrite (GetDependencies_Permutation G order1 order2). Qed.

Lemma GetDependencies_length G order1 order2 v :
  length (GetDependencies G order1 v) = length (GetDependencies G order2 v).
Proof. by rewrite (GetDependencies_Permutation G order1 order2). Qed.

(** C9 (as the claim has it, refuted): on the struct of the members a and b
    converted with the as-map flag set, one call returns the types of a and
    b in one order and another call in the other. *)
Lemma GetDependencies_two_orders :
  ~ (forall G order1 order2 (v : BTFStruct),
        BTFStruct_GetDependencies G order1 v = BTFStruct_GetDependencies G order2 v).
Proof.
  intros Hclaim.
  specialize (Hclaim (Sample.globals Sample.pair false true) 0%nat 1%nat
                (BTFStructParser (Sample.globals Sample.pair false true) "S" 8
                   [Sample.member "a" 1; Sample.member "b" 2])).
  vm_compute in Hclaim. discriminate.
Qed.

(** C9 (amended): two calls of GetDependencies on one node return the same
    IDs with the same multiplicities, and the same sequence when the as-map
    flag is unset; the result depends on the globals through the as-map flag
    alone, not through the reader.  For a struct or union node the sequence
    is that of the member types in the order of the list when the flag is
    unset, and the member types of the map entries in an order that can
    change from call to call when it is set. *)
Theorem GetDependencies_deterministic_up_to_order G order1 order2 v :
  GetDependencies G order1 v ≡ₚ GetDependencies G order2 v /\
  (isAsMap G = false -> GetDependencies G order1 v = GetDependencies G order2 v) /\
  (forall G', isAsMap G' = isAsMap G ->
              GetDependencies G' order1 v = GetDependencies G order1 v) /\
  (forall s, v = IsBTFStruct s ->
     if isAsMap G
     then GetDependencies G order1 v ≡ₚ
            map (fun entry => BTFStructMember_Type entry.2)
              (map_to_list (default ∅ (BTFStruct_MembersMap s)))
     else GetDependencies G order1 v =
            map BTFStructMember_Type (default [] (BTFStruct_Members s))) /\
  (forall u, v = IsBTFUnion u ->
     if isAsMap G
     then GetDependencies G order1 v ≡ₚ
            map (fun entry => BTFStructMember_Type entry.2)
              (map_to_list (default ∅ (BTFUnion_MembersMap u)))
     else GetDependencies G order1 v =
            map BTFStructMember_Type (default [] (BTFUnion_Members u))).
Proof.
  split; [apply GetDependencies_Permutation|].
  split.
  { intros HG. destruct v; simpl; try reflexivity;
      unfold BTFStruct_GetDependencies, BTFUnion_GetDependencies;
      by rewrite !membersDependencies_as_list. }
  split.
  { intros G' HG'. destruct v; simpl; try reflexivity;
      unfold BTFStruct_GetDependencies, BTFUnion_GetDependencies,
        membersDependencies; by rewrite HG'. }
  split.
  - intros s ->. simpl. unfold BTFStruct_GetDependencies.
    destruct (isAsMap G) eqn:HG.
    + rewrite membersDependencies_as_map by done.
      apply Permutation_map, rangeMap_Permutation.
    + by rewrite membersDependencies_as_list.
  - intros u ->. simpl. unfold BTFUnion_GetDependencies.
    destruct (isAsMap G) eqn:HG.
    + rewrite membersDependencies_as_map by done.
      apply Permutation_map, rangeMap_Permutation.
    + by rewrite membersDependencies_as_list.
Qed.

Lemma GetDependencies_deterministic_up_to_order_witness :
  GetDependencies (Sample.globals Sample.pair false true) 0
    (BTFTypeParser (Sample.globals Sample.pair false true)
       (btf.Struct "S" 8 [Sample.member "a" 1; Sample.member "b" 2]))
  ≡ₚ [1; 2] /\
  GetDependencies (Sample.globals Sample.pair false false) 0
    (BTFTypeParser (Sample.globals Sample.pair false false)
       (btf.Struct "S" 8 [Sample.member "a" 1; Sample.member "b" 2]))
  = GetDependencies (Sample.globals Sample.pair false false) 1
      (BTFTypeParser (Sample.globals Sample.pair false false)
         (btf.Struct "S" 8 [Sample.member "a" 1; Sample.member "b" 2])).
Proof.
  split.
  - destruct (GetDependencies_deterministic_up_to_order
                (Sample.globals Sample.pair false true) 0 1
                (BTFTypeParser (Sample.globals Sample.pair false true)
                   (btf.Struct "S" 8 [Sample.member "a" 1; Sample.member "b" 2])))
      as (_ & _ & _ & Hstruct & _).
    specialize (Hstruct _ eq_refl). simpl isAsMap in Hstruct.
    etransitivity; [exact Hstruct|]. vm_compute. reflexivity.
  - destruct (GetDependencies_deterministic_up_to_order
                (Sample.globals Sample.pair false false) 0 1
                (BTFTypeParser (Sample.globals Sample.pair false false)
                   (btf.Struct "S" 8 [Sample.member "a" 1; Sample.member "b" 2])))
      as (_ & Hlist & _).
    apply Hlist. reflexivity.
Defined.

(** ** Resolving a reference to an ID *)

Lemma stripsN_deterministic s n m t t1 t2 :
  stripsN s n t t1 -> stripsN s m t t2 -> n = m /\ t1 = t2.
Proof.
  intros H1. revert m t2. induction H1 as [t Ht|n t inner t' Ht _ IH];
    intros m t2 H2;
    inversion H2 as [? Ht2|? ? inner2 ? Ht2 Hs2]; subst; try congruence.
  - done.
  - assert (inner2 = inner) as -> by congruence.
    destruct (IH _ _ Hs2) as [-> ->]. done.
Qed.

(** The wrappers passed on a chain that ends are pairwise distinct nodes of
    the table. *)
Lemma stripsN_path s n t t' :
  stripsN s n t t' ->
  exists path : list N,
    length path = n /\ NoDup path /\
    (forall x, x ∈ path ->
       (N.to_nat x < length (btf.types s))%nat /\
       exists m, (1 <= m <= n)%nat /\ stripsN s m x t').
Proof.
  induction 1 as [t Ht|n t inner t' Ht Hs (path & Hlen & Hnd & Hpath)].
  - exists []. split; [done|]. split; [constructor|].
    intros x Hx. by apply elem_of_nil in Hx.
  - assert (stripsN s (S n) t t') as Hst by (econstructor; eauto).
    exists (t :: path). split; [simpl; by rewrite Hlen|]. split.
    + constructor; [|done]. intros Hin.
      destruct (Hpath _ Hin) as (_ & m & Hm & Hsm).
      destruct (stripsN_deterministic _ _ _ _ _ _ Hst Hsm) as [Heq _]. lia.
    + intros x [->|Hin]%elem_of_cons.
      * split; [|exists (S n); split; [lia|done]].
        unfold btf.deref in Ht. destruct (btf.types s !! N.to_nat t) eqn:Hl;
          [|discriminate]. by apply lookup_lt_Some in Hl.
      * destruct (Hpath _ Hin) as (Hlt & m & Hm & Hsm).
        split; [done|]. exists m. split; [lia|done].
Qed.

Lemma NoDup_bounded_length (path : list N) (bound : nat) :
  NoDup path -> (forall x, x ∈ path -> (N.to_nat x < bound)%nat) ->
  (length path <= bound)%nat.
Proof.
  intros Hnd Hlt.
  assert (NoDup (N.to_nat <$> path)) as Hnd'.
  { apply NoDup_fmap_2; [|done]. intros x y. apply N2Nat.inj. }
  assert (N.to_nat <$> path ⊆+ seq 0 bound) as Hsub.
  { apply NoDup_submseteq; [done|]. intros x Hx.
    apply list_elem_of_fmap in Hx as (y & -> & Hy).
    apply elem_of_seq. specialize (Hlt _ Hy). lia. }
  apply submseteq_length in Hsub. by rewrite length_fmap, length_seq in Hsub.
Qed.

Lemma stripsN_bounded s n t t' :
  stripsN s n t t' -> (n <= length (btf.types s))%nat.
Proof.
  intros (path & <- & Hnd & Hpath)%stripsN_path.
  apply NoDup_bounded_length; [done|]. intros x Hx. by destruct (Hpath _ Hx).
Qed.

Lemma underlying_stripsN s n t t' depth :
  stripsN s n t t' -> (n <= depth)%nat -> btf.underlying s depth t = t'.
Proof.
  intros Hs. revert depth. induction Hs as [t Ht|n t inner t' Ht _ IH];
    intros depth Hle.
  - destruct depth; simpl; by rewrite Ht.
  - destruct depth as [|depth]; [lia|]. simpl. rewrite Ht. apply IH. lia.
Qed.

Lemma UnderlyingType_stripsTo s t t' :
  stripsTo s t t' -> btf.UnderlyingType s t = t'.
Proof.
  intros [n Hs]. unfold btf.UnderlyingType.
  eapply underlying_stripsN; [done|]. by eapply stripsN_bounded.
Qed.

(** C6: with the dereference flag unset, a reference resolves to the ID the
    reader gives the referenced node itself; with the flag set, it resolves
    to the ID of the first node that is reached by stripping const,
    volatile, restrict and typedef wrappers off the referenced node; and the
    ID is a function of the reference, the flag and the reader. *)
Theorem GetTypeID_resolves G t :
  (isDereference G = false ->
     GetTypeID G t = reader_TypeID G t /\
     forall id, btf.TypeID_of (reader G) t = Some id -> GetTypeID G t = id) /\
  (isDereference G = true ->
     forall t', stripsTo (reader G) t t' ->
       GetTypeID G t = reader_TypeID G t' /\
       forall id, btf.TypeID_of (reader G) t' = Some id -> GetTypeID G t = id) /\
  (forall G', reader G' = reader G -> isDereference G' = isDereference G ->
     GetTypeID G' t = GetTypeID G t).
Proof.
  split; [|split].
  - intros HG. unfold GetTypeID. rewrite HG. split; [done|].
    intros id Hid. unfold reader_TypeID. by rewrite Hid.
  - intros HG t' Hs. unfold GetTypeID. rewrite HG.
    rewrite (UnderlyingType_stripsTo _ _ _ Hs). split; [done|].
    intros id Hid. unfold reader_TypeID. by rewrite Hid.
  - intros G' Hr Hd. unfold GetTypeID, reader_TypeID. by rewrite Hr, Hd.
Qed.

Lemma GetTypeID_resolves_witness :
  GetTypeID (Sample.globals Sample.constInt false false) 2 = 2 /\
  GetTypeID (Sample.globals Sample.constInt true false) 2 = 1.
Proof.
  split.
  - destruct (GetTypeID_resolves (Sample.globals Sample.constInt false false) 2)
      as (Hunset & _ & _).
    destruct (Hunset eq_refl) as [_ Hid]. apply Hid. reflexivity.
  - destruct (GetTypeID_resolves (Sample.globals Sample.constInt true false) 2)
      as (_ & Hset & _).
    assert (stripsTo (Sample.spec Sample.constInt) 2 1) as Hs.
    { exists 1%nat. eapply stripsN_step; [reflexivity|].
      apply stripsN_here. reflexivity. }
    destruct (Hset eq_refl 1 Hs) as [_ Hid]. apply Hid. reflexivity.
Defined.

(** ** Resolving the targets *)

Lemma targetLoop_app G targetTypes queue0 :
  targetLoop G targetTypes queue0 =
  match targetLoop G targetTypes [] with
  | Ok queue => Ok (queue0 ++ queue)
  | Panic p => Panic p
  end.
Proof.
  revert queue0. induction targetTypes as [|name rest IH]; intros queue0; simpl.
  - by rewrite app_nil_r.
  - destruct (findTarget G name) as [found|p]; [|done].
    rewrite (IH (queue0 ++ _)), (IH [reader_TypeID G found]).
    destruct (targetLoop G rest []); [|done]. by rewrite <- app_assoc.
Qed.

Lemma targetLoop_cons G name rest :
  targetLoop G (name :: rest) [] =
  match findTarget G name with
  | Ok found =>
      match targetLoop G rest [] with
      | Ok queue => Ok (reader_TypeID G found :: queue)
      | Panic p => Panic p
      end
  | Panic p => Panic p
  end.
Proof.
  simpl. destruct (findTarget G name) as [found|p]; [|done].
  by rewrite targetLoop_app.
Qed.

Lemma findTarget_reader G G' name :
  reader G' = reader G -> findTarget G' name = findTarget G name.
Proof. intros Hr. unfold findTarget. by rewrite Hr. Qed.

Lemma targetLoop_reader G G' targetTypes queue :
  reader G' = reader G ->
  targetLoop G' targetTypes queue = targetLoop G targetTypes queue.
Proof.
  intros Hr. revert queue. induction targetTypes as [|name rest IH];
    intros queue; simpl; [done|].
  rewrite (findTarget_reader G G') by done. unfold reader_TypeID. rewrite Hr.
  destruct (findTarget G name); [apply IH|done].
Qed.

(** C8: when the targets resolve, the queue the traversal starts from holds,
    target by target, the ID the reader gives the very node the lookup of
    the target returned, and the flags have no part in it: globals with the
    same reader and any setting of the dereference flag give the same
    queue. *)
Theorem root_is_own_id G targetTypes queue :
  targetLoop G targetTypes [] = Ok queue ->
  Forall2
    (fun name id =>
       exists found,
         findTarget G name = Ok found /\
         id = reader_TypeID G found /\
         forall own, btf.TypeID_of (reader G) found = Some own -> id = own)
    targetTypes queue /\
  forall G', reader G' = reader G -> targetLoop G' targetTypes [] = Ok queue.
Proof.
  intros Hq. split.
  - revert queue Hq. induction targetTypes as [|name rest IH]; intros queue.
    + simpl. intros [= <-]. constructor.
    + rewrite targetLoop_cons.
      destruct (findTarget G name) as [found|p] eqn:Hf; [|discriminate].
      destruct (targetLoop G rest []) as [queue'|p]; [|discriminate].
      intros [= <-]. constructor; [|by apply IH].
      exists found. split; [done|]. split; [done|].
      intros own Hown. unfold reader_TypeID. by rewrite Hown.
  - intros G' Hr. by rewrite (targetLoop_reader G G').
Qed.

Lemma root_is_own_id_witness :
  targetLoop (Sample.globals Sample.arr true false) ["arr_t"; "int"] [] = Ok [4; 1] /\
  GetTypeID (Sample.globals Sample.arr true false) 4 = 3.
Proof.
  split; [|reflexivity].
  destruct (root_is_own_id (Sample.globals Sample.arr false false)
              ["arr_t"; "int"] [4; 1] eq_refl) as [_ Hflags].
  apply Hflags. reflexivity.
Defined.

(** ** The traversal *)

Lemma enqueueLoop_filter (results : gmap N BTFType) deps queue :
  enqueueLoop results deps queue =
  queue ++ filter (fun d => d ∉ dom results) deps.
Proof.
  unfold enqueueLoop. revert queue.
  induction deps as [|d deps IH]; intros queue; simpl.
  - by rewrite app_nil_r.
  - rewrite IH. destruct (results !! d) as [v|] eqn:Hd.
    + rewrite filter_cons_False; [done|].
      intros Hnin. apply Hnin, elem_of_dom. by eexists.
    + rewrite filter_cons_True by (by apply not_elem_of_dom).
      by rewrite <- app_assoc.
Qed.

Lemma elem_of_validIDs G k :
  k ∈ validIDs G <-> is_Some (btf.TypeByID (reader G) k).
Proof.
  unfold validIDs, btf.TypeByID.
  rewrite elem_of_list_to_set, list_elem_of_fmap, lookup_lt_is_Some.
  split.
  - intros (n & -> & Hn%elem_of_seq). rewrite Nat2N.id. lia.
  - intros Hlt. exists (N.to_nat k). rewrite N2Nat.id. split; [done|].
    apply elem_of_seq. lia.
Qed.

Lemma zero_valid G k : k ∈ validIDs G -> 0 ∈ validIDs G.
Proof.
  rewrite !elem_of_validIDs. unfold btf.TypeByID.
  rewrite !lookup_lt_is_Some. simpl. lia.
Qed.

Lemma reader_TypeID_valid G t :
  0 ∈ validIDs G -> reader_TypeID G t ∈ validIDs G.
Proof.
  intros H0. unfold reader_TypeID, btf.TypeID_of, btf.deref.
  destruct (btf.types (reader G) !! N.to_nat t) as [n|] eqn:Ht; [|done].
  assert (t ∈ validIDs G) as Hv.
  { apply elem_of_validIDs. unfold btf.TypeByID. by rewrite Ht. }
  by destruct n.
Qed.

Lemma GetTypeID_valid G t : 0 ∈ validIDs G -> GetTypeID G t ∈ validIDs G.
Proof.
  intros H0. unfold GetTypeID.
  destruct (isDereference G); by apply reader_TypeID_valid.
Qed.

Lemma memberLoop_entry G Members name e :
  (memberLoop G Members).1 !! name = Some e ->
  exists member, member ∈ Members /\ e = newStructMember G member.
Proof.
  rewrite memberLoop_lookup.
  destruct (last _) as [member|] eqn:Hlast; [|discriminate].
  intros [= <-]. exists member. split; [|done].
  apply last_Some_elem_of, list_elem_of_filter in Hlast. by destruct Hlast.
Qed.

Lemma membersDependencies_parsed G order Members d :
  d ∈ membersDependencies G order
        (if isAsMap G then Some (memberLoop G Members).1 else None)
        (if isAsMap G then None else Some (map (newStructMember G) Members)) ->
  exists t, d = GetTypeID G t.
Proof.
  destruct (isAsMap G) eqn:HG.
  - rewrite membersDependencies_as_map by done. simpl.
    rewrite rangeMap_Permutation.
    intros ([name e] & -> & Hin)%list_elem_of_fmap.
    apply elem_of_map_to_list, memberLoop_entry in Hin as (member & _ & ->).
    by eexists.
  - rewrite membersDependencies_as_list by done. simpl.
    intros (e & -> & (member & -> & _)%list_elem_of_fmap)%list_elem_of_fmap.
    by eexists.
Qed.

Lemma GetDependencies_GetTypeID G order t d :
  d ∈ GetDependencies G order (BTFTypeParser G t) ->
  exists t', d = GetTypeID G t'.
Proof.
  destruct t; simpl; try (by intros ?%elem_of_nil);
    try (intros ->%list_elem_of_singleton; by eexists).
  - unfold BTFArray_GetDependencies. simpl.
    intros [->|[->|[]%elem_of_nil]%elem_of_cons]%elem_of_cons; by eexists.
  - unfold BTFStruct_GetDependencies.
    destruct (BTFStructParser_fields G Name Size Members) as [-> ->].
    apply membersDependencies_parsed.
  - unfold BTFUnion_GetDependencies.
    destruct (BTFUnionParser_fields G Name Size Members) as [-> ->].
    apply membersDependencies_parsed.
  - unfold BTFFuncProto_GetDependencies, BTFFuncProtoParser. simpl.
    rewrite !fold_left_snoc_map. simpl.
    intros [->|Hin]%elem_of_cons; [by eexists|].
    apply list_elem_of_fmap in Hin as (e & -> & Hin).
    apply list_elem_of_fmap in Hin as (param & -> & _). by eexists.
  - unfold BTFDatasec_GetDependencies, BTFDatasecParser. simpl.
    rewrite !fold_left_snoc_map. simpl.
    intros (e & -> & (v & -> & _)%list_elem_of_fmap)%list_elem_of_fmap.
    by eexists.
Qed.

Lemma GetDependencies_valid G order t d :
  0 ∈ validIDs G ->
  d ∈ GetDependencies G order (BTFTypeParser G t) -> d ∈ validIDs G.
Proof.
  intros H0 (t' & ->)%GetDependencies_GetTypeID. by apply GetTypeID_valid.
Qed.

Lemma GetDependencies_maxDeps G order k t :
  btf.TypeByID (reader G) k = Some t ->
  (length (GetDependencies G order (BTFTypeParser G t)) <= maxDeps G)%nat.
Proof.
  intros Ht. rewrite (GetDependencies_length G order 0). unfold maxDeps.
  apply max_list_elem_of_le, list_elem_of_fmap. exists t. split; [done|].
  by eapply list_elem_of_lookup_2.
Qed.

Lemma weightAt_pos K n : (1 <= weightAt K n)%nat.
Proof. induction n; simpl; lia. Qed.

Lemma weightAt_mono K n m : (n <= m)%nat -> (weightAt K n <= weightAt K m)%nat.
Proof.
  induction 1 as [|m _ IH]; [done|]. simpl.
  pose proof (weightAt_pos K m). nia.
Qed.

Lemma remaining_insert_old G (results : gmap N BTFType) i c :
  i ∈ dom results -> remaining G (<[i := c]> results) = remaining G results.
Proof.
  intros Hi. unfold remaining. rewrite dom_insert_L.
  f_equal. set_solver.
Qed.

Lemma size_union_fresh (X : gset N) (i : N) :
  i ∉ X -> size ({[i]} ∪ X) = S (size X).
Proof.
  intros Hi. rewrite size_union by set_solver. by rewrite size_singleton.
Qed.

Lemma remaining_insert_new G (results : gmap N BTFType) i c :
  i ∈ validIDs G -> i ∉ dom results ->
  S (remaining G (<[i := c]> results)) = remaining G results.
Proof.
  intros Hv Hi. unfold remaining. rewrite dom_insert_L.
  assert (validIDs G ∖ dom results =
          ({[i]} : gset N) ∪ (validIDs G ∖ (({[i]} : gset N) ∪ dom results)))
    as ->.
  { apply set_eq. intros x. rewrite elem_of_union, !elem_of_difference,
      elem_of_union, elem_of_singleton.
    destruct (decide (x = i)) as [->|]; naive_solver. }
  rewrite size_union_fresh; [done|]. set_solver.
Qed.

Lemma weight_insert_le G (results : gmap N BTFType) i c x :
  i ∈ validIDs G ->
  (weight G (<[i := c]> results) x <= weight G results x)%nat.
Proof.
  intros Hv. unfold weight. apply weightAt_mono.
  destruct (decide (i ∈ dom results)) as [Hi|Hi].
  - rewrite remaining_insert_old by done. rewrite dom_insert_L.
    destruct (decide (x ∈ {[i]} ∪ dom results)) as [Hx|Hx];
      destruct (decide (x ∈ dom results)) as [Hx'|Hx']; try lia.
    exfalso. set_solver.
  - pose proof (remaining_insert_new G results i c Hv Hi). rewrite dom_insert_L.
    destruct (decide (x ∈ {[i]} ∪ dom results)) as [Hx|Hx];
      destruct (decide (x ∈ dom results)) as [Hx'|Hx']; lia.
Qed.

Lemma weight_popped G (results : gmap N BTFType) i c :
  i ∈ validIDs G ->
  weight G results i =
  (S (maxDeps G) * weightAt (maxDeps G) (remaining G (<[i := c]> results)))%nat.
Proof.
  intros Hv. unfold weight.
  destruct (decide (i ∈ dom results)) as [Hi|Hi].
  - rewrite remaining_insert_old by done.
    by replace (remaining G results + 1)%nat with (S (remaining G results)) by lia.
  - rewrite <- (remaining_insert_new G results i c Hv Hi).
    by rewrite Nat.add_0_r.
Qed.

Lemma measure_new G (results : gmap N BTFType) (deps : list N) :
  (measure G (filter (fun d => d ∉ dom results) deps) results
   <= length deps * weightAt (maxDeps G) (remaining G results))%nat.
Proof.
  unfold measure. induction deps as [|d deps IH]; [done|].
  destruct (decide (d ∉ dom results)) as [Hd|Hd].
  - rewrite filter_cons_True by done. simpl.
    unfold weight at 1. rewrite decide_False by done.
    rewrite Nat.add_0_r. lia.
  - rewrite filter_cons_False by done. simpl. lia.
Qed.

Lemma measure_insert_le G (results : gmap N BTFType) i c queue :
  i ∈ validIDs G ->
  (measure G queue (<[i := c]> results) <= measure G queue results)%nat.
Proof.
  intros Hv. unfold measure. induction queue as [|x queue IH]; [done|].
  simpl. pose proof (weight_insert_le G results i c x Hv). lia.
Qed.

(** An iteration of the loop brings the measure down. *)
Lemma measure_step G (results : gmap N BTFType) i c deps queue :
  i ∈ validIDs G ->
  (length deps <= maxDeps G)%nat ->
  (measure G (enqueueLoop (<[i := c]> results) deps queue) (<[i := c]> results)
   < measure G (i :: queue) results)%nat.
Proof.
  intros Hv Hlen. rewrite enqueueLoop_filter.
  unfold measure at 1. rewrite sum_list_with_app. fold (measure G queue (<[i := c]> results)).
  fold (measure G (filter (fun d => d ∉ dom (<[i := c]> results)) deps)
          (<[i := c]> results)).
  pose proof (measure_insert_le G results i c queue Hv).
  pose proof (measure_new G (<[i := c]> results) deps).
  unfold measure at 3. simpl. fold (measure G queue results).
  rewrite (weight_popped G results i c Hv).
  pose proof (weightAt_pos (maxDeps G) (remaining G (<[i := c]> results))).
  nia.
Qed.

Lemma queueLoop_terminates G orders fuel queue results calls :
  Forall (fun k => k ∈ validIDs G) queue ->
  (measure G queue results <= fuel)%nat ->
  exists out, queueLoop G fuel orders queue results calls = Some (Ok out).
Proof.
  revert queue results calls.
  induction fuel as [|fuel IH]; intros queue results calls Hvalid Hfuel.
  - destruct queue as [|i queue]; [by eexists|].
    unfold measure in Hfuel. simpl in Hfuel.
    pose proof (weightAt_pos (maxDeps G)
      (remaining G results + (if decide (i ∈ dom results) then 1 else 0))).
    unfold weight in Hfuel. lia.
  - destruct queue as [|i queue]; [by eexists|].
    apply Forall_cons in Hvalid as [Hi Hvalid].
    pose proof Hi as [t Ht]%elem_of_validIDs.
    simpl. rewrite Ht.
    apply IH.
    + rewrite enqueueLoop_filter. apply Forall_app. split; [done|].
      apply Forall_forall. intros d [_ Hd]%list_elem_of_filter.
      eapply GetDependencies_valid; [by eapply zero_valid|done].
    + pose proof (measure_step G results i (BTFTypeParser G t)
        (GetDependencies G (orders (length calls)) (BTFTypeParser G t)) queue Hi
        (GetDependencies_maxDeps G _ i t Ht)).
      lia.
Qed.

Lemma queueLoop_fuel_mono G orders fuel fuel' queue results calls out :
  queueLoop G fuel orders queue results calls = Some out ->
  (fuel <= fuel')%nat ->
  queueLoop G fuel' orders queue results calls = Some out.
Proof.
  revert fuel' queue results calls.
  induction fuel as [|fuel IH]; intros fuel' queue results calls Hrun Hle.
  - destruct queue; [|discriminate]. by destruct fuel'.
  - destruct queue as [|i queue]; [by destruct fuel'|].
    destruct fuel' as [|fuel']; [lia|]. simpl in *.
    destruct (btf.TypeByID (reader G) i); [|done].
    apply IH; [done|lia].
Qed.

Lemma walkInv_init G roots : walkInv G roots roots ∅.
Proof.
  split.
  - intros k v. by rewrite lookup_empty.
  - intros k d. by rewrite dom_empty_L, elem_of_empty.
  - intros k [Hk|Hk]; [by rewrite dom_empty_L, elem_of_empty in Hk|].
    by apply reachable_root.
  - intros k Hk. by right.
Qed.

Lemma walkInv_step G roots i queue results t order :
  walkInv G roots (i :: queue) results ->
  btf.TypeByID (reader G) i = Some t ->
  walkInv G roots
    (enqueueLoop (<[i := BTFTypeParser G t]> results)
       (GetDependencies G order (BTFTypeParser G t)) queue)
    (<[i := BTFTypeParser G t]> results).
Proof.
  intros [Hvalue Hdeps Hreach Hroots] Ht.
  assert (reachable G roots i) as Hi.
  { apply Hreach. right. apply elem_of_cons. by left. }
  assert (forall d, d ∈ GetDependencies G order (BTFTypeParser G t) ->
            depends G i d) as Hdep.
  { intros d Hd. exists t. split; [done|].
    by apply (GetDependencies_elem_of G order 0). }
  split.
  - intros k v. destruct (decide (i = k)) as [<-|Hne].
    + rewrite lookup_insert_eq. intros [= <-]. by exists t.
    + rewrite lookup_insert_ne by done. apply Hvalue.
  - intros k d Hk Hkd. rewrite enqueueLoop_filter.
    destruct (decide (d ∈ dom (<[i := BTFTypeParser G t]> results)))
      as [Hd|Hd]; [by left|right].
    rewrite dom_insert_L in Hk, Hd.
    apply elem_of_app.
    apply elem_of_union in Hk as [->%elem_of_singleton|Hk].
    + right. apply list_elem_of_filter. split; [by rewrite dom_insert_L|].
      destruct Hkd as (t' & Ht' & Hin).
      assert (t' = t) as -> by congruence.
      by apply (GetDependencies_elem_of G order 0).
    + left. destruct (Hdeps k d Hk Hkd) as [Hin|Hin]; [set_solver|].
      apply elem_of_cons in Hin as [->|Hin]; [set_solver|done].
  - intros k [Hk|Hk].
    + rewrite dom_insert_L in Hk.
      apply elem_of_union in Hk as [->%elem_of_singleton|Hk]; [done|].
      apply Hreach. by left.
    + rewrite enqueueLoop_filter in Hk.
      apply elem_of_app in Hk as [Hk|[_ Hk]%list_elem_of_filter].
      * apply Hreach. right. apply elem_of_cons. by right.
      * eapply reachable_step; [exact Hi|]. by apply Hdep.
  - intros k Hk. rewrite dom_insert_L, enqueueLoop_filter.
    destruct (Hroots k Hk) as [Hin|Hin]; [left; set_solver|].
    apply elem_of_cons in Hin as [->|Hin]; [left; set_solver|].
    right. apply elem_of_app. by left.
Qed.

Lemma queueLoop_inv G roots orders fuel queue results calls out calls' :
  queueLoop G fuel orders queue results calls = Some (Ok (out, calls')) ->
  walkInv G roots queue results ->
  walkInv G roots [] out.
Proof.
  revert queue results calls.
  induction fuel as [|fuel IH]; intros queue results calls Hrun Hinv.
  - destruct queue; [|discriminate]. simpl in Hrun. by injection Hrun as <- <-.
  - destruct queue as [|i queue]; [simpl in Hrun; by injection Hrun as <- <-|].
    simpl in Hrun.
    destruct (btf.TypeByID (reader G) i) as [t|] eqn:Ht; [|discriminate].
    eapply IH; [exact Hrun|]. by apply walkInv_step.
Qed.

Lemma WalkForTargetTypes_Ok G fuel orders targetTypes results :
  WalkForTargetTypes G fuel orders targetTypes = Some (Ok results) <->
  exists roots calls,
    targetLoop G targetTypes [] = Ok roots /\
    queueLoop G fuel orders roots ∅ [] = Some (Ok (results, calls)).
Proof.
  unfold WalkForTargetTypes, WalkForTargetTypes_calls. split.
  - destruct (targetLoop G targetTypes []) as [roots|p]; [|discriminate].
    destruct (queueLoop G fuel orders roots ∅ []) as [[[res calls]|p]|] eqn:Hq;
      try discriminate.
    intros [= <-]. by exists roots, calls.
  - intros (roots & calls & -> & ->). done.
Qed.

Lemma reachable_least G roots (S : gset N) k :
  (forall r, r ∈ roots -> r ∈ S) -> closed G S -> reachable G roots k -> k ∈ S.
Proof.
  intros Hroots Hclosed. induction 1 as [k Hk|k d _ IH Hd]; [by apply Hroots|].
  by eapply Hclosed.
Qed.

Lemma targetLoop_valid G targetTypes roots :
  btf.types (reader G) <> [] ->
  targetLoop G targetTypes [] = Ok roots ->
  Forall (fun k => k ∈ validIDs G) roots.
Proof.
  intros Hne. assert (0 ∈ validIDs G) as H0.
  { apply elem_of_validIDs. unfold btf.TypeByID.
    destruct (btf.types (reader G)); [done|]. by eexists. }
  revert roots. induction targetTypes as [|name rest IH]; intros roots.
  - simpl. intros [= <-]. constructor.
  - rewrite targetLoop_cons.
    destruct (findTarget G name) as [found|]; [|discriminate].
    destruct (targetLoop G rest []) as [roots'|]; [|discriminate].
    intros [= <-]. constructor; [by apply reader_TypeID_valid|by apply IH].
Qed.

(** C2: when the targets resolve to the roots, the traversal ends, on any
    order of the map loops and with any larger bound on its iterations, and
    the keys of the mapping it returns are the least set that holds the roots
    and, with an ID, the Dependency Set of its converted node. *)
Theorem closure_is_least_closed_set G orders targetTypes roots :
  btf.types (reader G) <> [] ->
  targetLoop G targetTypes [] = Ok roots ->
  exists fuel results,
    (forall fuel', (fuel <= fuel')%nat ->
       WalkForTargetTypes G fuel' orders targetTypes = Some (Ok results)) /\
    (forall k, k ∈ roots -> k ∈ dom results) /\
    closed G (dom results) /\
    (forall S : gset N,
       (forall k, k ∈ roots -> k ∈ S) -> closed G S -> dom results ⊆ S).
Proof.
  intros Hne Hroots.
  pose proof (targetLoop_valid G targetTypes roots Hne Hroots) as Hvalid.
  destruct (queueLoop_terminates G orders (measure G roots ∅) roots ∅ []
              Hvalid (Nat.le_refl _)) as [[results calls] Hrun].
  pose proof (queueLoop_inv G roots orders _ _ _ _ _ _ Hrun (walkInv_init G roots))
    as [Hvalue Hdeps Hreach Hin].
  exists (measure G roots ∅), results. split; [|split; [|split]].
  - intros fuel' Hle. apply WalkForTargetTypes_Ok. exists roots, calls.
    split; [done|]. by eapply queueLoop_fuel_mono.
  - intros k Hk. destruct (Hin k Hk) as [?|Hnil]; [done|].
    by apply elem_of_nil in Hnil.
  - intros k d Hk Hd. destruct (Hdeps k d Hk Hd) as [?|Hnil]; [done|].
    by apply elem_of_nil in Hnil.
  - intros S HS Hclosed k Hk.
    eapply reachable_least; [exact HS|exact Hclosed|]. apply Hreach. by left.
Qed.

Lemma closure_is_least_closed_set_witness :
  exists fuel results,
    (forall fuel', (fuel <= fuel')%nat ->
       WalkForTargetTypes (Sample.globals Sample.foo false false) fuel'
         (fun _ => O) ["struct:Foo"] = Some (Ok results)) /\
    (forall k, k ∈ [2] -> k ∈ dom results) /\
    closed (Sample.globals Sample.foo false false) (dom results) /\
    (forall S : gset N,
       (forall k, k ∈ [2] -> k ∈ S) ->
       closed (Sample.globals Sample.foo false false) S -> dom results ⊆ S).
Proof.
  apply (closure_is_least_closed_set (Sample.globals Sample.foo false false)
           (fun _ => O) ["struct:Foo"] [2]).
  - discriminate.
  - reflexivity.
Defined.

(** The scenario of the specification: from the target struct:Foo the
    traversal returns the struct and the int, and not void. *)
Example walk_foo :
  exists results,
    WalkForTargetTypes (Sample.globals Sample.foo false false) 10 (fun _ => O)
      ["struct:Foo"] = Some (Ok results) /\
    dom results = {[1; 2]} /\
    results !! 1 = Some (IsBTFInt (BTFIntParser "int" 4 "signed")).
Proof.
  eexists. split; [vm_compute; reflexivity|]. split; [|reflexivity].
  apply set_eq. intros k. rewrite elem_of_dom.
  rewrite elem_of_union, !elem_of_singleton.
  split.
  - intros [v Hv].
    destruct (decide (k = 1)) as [->|H1]; [by left|].
    destruct (decide (k = 2)) as [->|H2]; [by right|].
    exfalso. revert Hv.
    change (({[ 1 := IsBTFInt (BTFIntParser "int" 4 "signed");
                2 := BTFTypeParser (Sample.globals Sample.foo false false)
                       (btf.Struct "Foo" 6 [Sample.member "v1" 1]) ]}
              : gmap N BTFType) !! k = Some v -> False).
    rewrite lookup_insert_ne by done. rewrite lookup_singleton_ne by done.
    discriminate.
  - intros [->| ->]; by eexists.
Qed.

(** C5: the dependencies of an array node are, as a set, its index type ID
    alone, so the element type ID is among them only when it is the index
    type ID; the traversal ends all the same on the two occurrences of the
    index type ID, and has the index type ID of every array node of its
    mapping as a key, bound to the conversion of the node of that ID
    whichever occurrence brought it in. *)
Theorem array_depends_on_index_only G :
  (forall v d, d ∈ BTFArray_GetDependencies v <-> d = BTFArray_IndexType v) /\
  (forall v, BTFArray_ElemType v <> BTFArray_IndexType v ->
             BTFArray_ElemType v ∉ BTFArray_GetDependencies v) /\
  (forall order Index Elem Nelems d,
      d ∈ GetDependencies G order (BTFTypeParser G (btf.Array Index Elem Nelems))
      <-> d = GetTypeID G Index) /\
  (forall orders targetTypes roots,
      btf.types (reader G) <> [] ->
      targetLoop G targetTypes [] = Ok roots ->
      exists fuel results,
        WalkForTargetTypes G fuel orders targetTypes = Some (Ok results)) /\
  (forall fuel orders targetTypes results k v,
      WalkForTargetTypes G fuel orders targetTypes = Some (Ok results) ->
      results !! k = Some (IsBTFArray v) ->
      exists t,
        btf.TypeByID (reader G) (BTFArray_IndexType v) = Some t /\
        results !! BTFArray_IndexType v = Some (BTFTypeParser G t)).
Proof.
  assert (forall v d, d ∈ BTFArray_GetDependencies v <-> d = BTFArray_IndexType v)
    as Hset.
  { intros v d. unfold BTFArray_GetDependencies.
    rewrite !elem_of_cons, elem_of_nil. tauto. }
  split; [exact Hset|]. split; [|split; [|split]].
  - intros v Hne Hin. by apply Hset in Hin.
  - intros order Index Elem Nelems d. simpl. by rewrite Hset.
  - intros orders targetTypes roots Hne Hroots.
    pose proof (targetLoop_valid G targetTypes roots Hne Hroots) as Hvalid.
    destruct (queueLoop_terminates G orders (measure G roots ∅) roots ∅ []
                Hvalid (Nat.le_refl _)) as [[results calls] Hrun].
    exists (measure G roots ∅), results.
    apply WalkForTargetTypes_Ok. by exists roots, calls.
  - intros fuel orders targetTypes results k v Hwalk Hk.
    apply WalkForTargetTypes_Ok in Hwalk as (roots & calls & _ & Hrun).
    pose proof (queueLoop_inv G roots orders _ _ _ _ _ _ Hrun
                  (walkInv_init G roots)) as [Hvalue Hdeps _ _].
    destruct (Hvalue k _ Hk) as (t & Ht & Hconv).
    assert (depends G k (BTFArray_IndexType v)) as Hdep.
    { exists t. split; [done|]. rewrite <- Hconv. simpl. by apply Hset. }
    destruct (Hdeps k _ (proj2 (elem_of_dom _ _) (mk_is_Some _ _ Hk)) Hdep)
      as [Hin|Hnil]; [|by apply elem_of_nil in Hnil].
    apply elem_of_dom in Hin as [c Hc].
    destruct (Hvalue _ _ Hc) as (t' & Ht' & ->). by exists t'.
Qed.

Lemma array_depends_on_index_only_witness :
  exists results,
    WalkForTargetTypes (Sample.globals Sample.arr false false) 10 (fun _ => O)
      ["arr_t"] = Some (Ok results) /\
    results !! 2 = Some (IsBTFInt (BTFIntParser "__ARRAY_SIZE_TYPE__" 4 "unsigned")) /\
    results !! 1 = None.
Proof.
  eexists. split; [vm_compute; reflexivity|]. split; [|reflexivity].
  destruct (array_depends_on_index_only (Sample.globals Sample.arr false false))
    as (_ & _ & _ & _ & Hwalk).
  destruct (Hwalk 10%nat (fun _ => O) ["arr_t"] _ 3
              (BTFArrayParser (Sample.globals Sample.arr false false) 2 1 4)
              eq_refl eq_refl) as (t & Ht & Hres).
  injection Ht as <-. exact Hres.
Defined.

(** C1: the traversal converts an ID once for each time it was enqueued, and
    an ID is enqueued again as long as it is no key yet.  From the target
    arr_t the index type of the array, ID 2, is handed to the converter
    twice; from the targets Foo and struct:Foo, every ID is. *)
Theorem walk_converts_twice :
  (forall orders, exists results,
      WalkForTargetTypes_calls (Sample.globals Sample.arr false false) 10
        orders ["arr_t"] = Some (Ok (results, [4; 3; 2; 2])) /\
      is_Some (results !! 2)) /\
  (forall orders, exists results,
      WalkForTargetTypes_calls (Sample.globals Sample.foo false false) 10
        orders ["Foo"; "struct:Foo"] = Some (Ok (results, [2; 2; 1; 1])) /\
      is_Some (results !! 1) /\ is_Some (results !! 2)).
Proof.
  split; intros orders; eexists; (split; [reflexivity|]); repeat split;
    by eexists.
Qed.

(** ** The full dump *)

Lemma ReadAllBTFType_map G :
  ReadAllBTFType G = map (BTFTypeParser G) (btf.types (reader G)).
Proof. unfold ReadAllBTFType. by rewrite fold_left_snoc_map. Qed.

(** The full dump has one exported node for each node of the table, in the
    order of the table. *)
Lemma ReadAllBTFType_lookup G (i : nat) :
  ReadAllBTFType G !! i = BTFTypeParser G <$> btf.types (reader G) !! i.
Proof. by rewrite ReadAllBTFType_map, list_lookup_fmap. Qed.

(** ** What the traversal returns *)

Lemma queueLoop_lookup G roots orders fuel results calls :
  queueLoop G fuel orders roots ∅ [] = Some (Ok (results, calls)) ->
  forall k v,
    results !! k = Some v <->
    reachable G roots k /\
    exists t, btf.TypeByID (reader G) k = Some t /\ v = BTFTypeParser G t.
Proof.
  intros Hrun.
  pose proof (queueLoop_inv G roots orders _ _ _ _ _ _ Hrun (walkInv_init G roots))
    as [Hvalue Hdeps Hreach Hroots].
  assert (forall k, reachable G roots k -> k ∈ dom results) as Hdom.
  { induction 1 as [k Hk|k d _ IH Hd].
    - destruct (Hroots k Hk) as [?|Hnil]; [done|]. by apply elem_of_nil in Hnil.
    - destruct (Hdeps k d IH Hd) as [?|Hnil]; [done|].
      by apply elem_of_nil in Hnil. }
  intros k v. split.
  - intros Hk. split; [|by apply Hvalue].
    apply Hreach. left. apply elem_of_dom. by eexists.
  - intros (Hk & t & Ht & ->).
    apply Hdom, elem_of_dom in Hk as [v Hv].
    destruct (Hvalue k v Hv) as (t' & Ht' & ->). congruence.
Qed.

(** X1: a traversal that ends returns exactly the IDs that a chain of
    dependencies links to a root, each bound to the conversion of the node
    the reader has under that ID. *)
Theorem walk_result_characterised G fuel orders targetTypes results :
  WalkForTargetTypes G fuel orders targetTypes = Some (Ok results) ->
  exists roots,
    targetLoop G targetTypes [] = Ok roots /\
    forall k v,
      results !! k = Some v <->
      reachable G roots k /\
      exists t, btf.TypeByID (reader G) k = Some t /\ v = BTFTypeParser G t.
Proof.
  intros (roots & calls & Hroots & Hrun)%WalkForTargetTypes_Ok.
  exists roots. split; [done|]. by eapply queueLoop_lookup.
Qed.

Lemma walk_result_characterised_witness :
  exists results,
    WalkForTargetTypes (Sample.globals Sample.arr false false) 10 (fun _ => O)
      ["arr_t"] = Some (Ok results) /\
    results !! 1 = None /\
    reachable (Sample.globals Sample.arr false false) [4] 2.
Proof.
  eexists. split; [vm_compute; reflexivity|]. split; [reflexivity|].
  destruct (walk_result_characterised (Sample.globals Sample.arr false false)
              10 (fun _ => O) ["arr_t"] _ eq_refl) as (roots & Hroots & Hchar).
  injection Hroots as <-.
  eapply proj1, Hchar. reflexivity.
Defined.

(** X2: in closure mode every exported node is the one the full dump has at
    the position of its key: the mapping is the full dump cut down to the
    closure. *)
Theorem walk_agrees_with_full_dump G fuel orders targetTypes results k v :
  WalkForTargetTypes G fuel orders targetTypes = Some (Ok results) ->
  results !! k = Some v ->
  ReadAllBTFType G !! N.to_nat k = Some v /\
  (size results <= length (ReadAllBTFType G))%nat.
Proof.
  intros (roots & calls & Hroots & Hrun)%WalkForTargetTypes_Ok Hk.
  pose proof (queueLoop_lookup G roots orders _ _ _ Hrun) as Hchar.
  split.
  - apply Hchar in Hk as (_ & t & Ht & ->).
    rewrite ReadAllBTFType_map, list_lookup_fmap.
    unfold btf.TypeByID in Ht. by rewrite Ht.
  - rewrite ReadAllBTFType_map, length_map, <- size_dom.
    assert (dom results ⊆ validIDs G) as Hsub.
    { intros x [w Hw]%elem_of_dom. apply elem_of_validIDs.
      apply Hchar in Hw as (_ & t & Ht & _). by eexists. }
    apply subseteq_size in Hsub.
    etransitivity; [exact Hsub|]. unfold validIDs.
    etransitivity; [apply size_list_to_set_le|].
    by rewrite length_fmap, length_seq.
Qed.

Lemma walk_agrees_with_full_dump_witness :
  ReadAllBTFType (Sample.globals Sample.foo false false) !! 2%nat =
  Some (BTFTypeParser (Sample.globals Sample.foo false false)
          (btf.Struct "Foo" 6 [Sample.member "v1" 1])).
Proof.
  eapply proj1.
  eapply (walk_agrees_with_full_dump (Sample.globals Sample.foo false false)
            10 (fun _ => O) ["struct:Foo"] _ 2); reflexivity.
Defined.

(** ** Panics of the traversal *)




Lemma targetLoop_panic G resolved name rest p queue :
  Forall (fun name => is_Ok (findTarget G name)) resolved ->
  findTarget G name = Panic p ->
  targetLoop G (resolved ++ name :: rest) queue = Panic p.
Proof.
  intros Hres Hname. revert queue.
  induction Hres as [|name' resolved Hok _ IH]; intros queue; simpl.
  - by rewrite Hname.
  - destruct (findTarget G name'); [apply IH|done].
Qed.

(** X4: the traversal converts nothing when a target does not resolve:
    WalkForTargetTypes panics with the panic of the first such target,
    whatever targets follow and whatever the bound on the iterations. *)
Theorem walk_fails_on_first_bad_target G fuel orders resolved name rest p :
  Forall (fun name => is_Ok (findTarget G name)) resolved ->
  findTarget G name = Panic p ->
  WalkForTargetTypes_calls G fuel orders (resolved ++ name :: rest) = Some (Panic p) /\
  WalkForTargetTypes G fuel orders (resolved ++ name :: rest) = Some (Panic p).
Proof.
  intros Hres Hname.
  unfold WalkForTargetTypes, WalkForTargetTypes_calls.
  by rewrite (targetLoop_panic G resolved name rest p [] Hres Hname).
Qed.

Lemma walk_fails_on_first_bad_target_witness :
  WalkForTargetTypes (Sample.globals Sample.foo false false) 0 (fun _ => O)
    ["Foo"; "const:Foo"; "struct:Bar"] = Some (Panic (panic_string badCategoryMessage)).
Proof.
  eapply proj2.
  apply (walk_fails_on_first_bad_target (Sample.globals Sample.foo false false)
           0 (fun _ => O) ["Foo"] "const:Foo" ["struct:Bar"]).
  - constructor; [exact I|constructor].
  - reflexivity.
Defined.

(** ** The result as a function of the set of roots *)

Lemma reachable_roots_subseteq G roots1 roots2 k :
  (forall r, r ∈ roots1 -> r ∈ roots2) ->
  reachable G roots1 k -> reachable G roots2 k.
Proof.
  intros Hsub. induction 1 as [k Hk|k d _ IH Hd].
  - apply reachable_root. by apply Hsub.
  - by eapply reachable_step.
Qed.

Lemma reachable_app G roots1 roots2 k :
  reachable G (roots1 ++ roots2) k <->
  reachable G roots1 k \/ reachable G roots2 k.
Proof.
  split.
  - induction 1 as [k Hk|k d _ IH Hd].
    + apply elem_of_app in Hk as [Hk|Hk]; [left|right]; by apply reachable_root.
    + destruct IH as [IH|IH]; [left|right]; by eapply reachable_step.
  - intros [Hk|Hk]; revert Hk; apply reachable_roots_subseteq;
      intros r Hr; apply elem_of_app; auto.
Qed.

Lemma targetLoop_append G targets1 targets2 :
  targetLoop G (targets1 ++ targets2) [] =
  match targetLoop G targets1 [] with
  | Ok roots1 =>
      match targetLoop G targets2 [] with
      | Ok roots2 => Ok (roots1 ++ roots2)
      | Panic p => Panic p
      end
  | Panic p => Panic p
  end.
Proof.
  induction targets1 as [|name rest IH].
  - simpl. by destruct (targetLoop G targets2 []).
  - rewrite <- app_comm_cons, !targetLoop_cons.
    destruct (findTarget G name) as [found|]; [|done]. rewrite IH.
    destruct (targetLoop G rest []); [|done].
    by destruct (targetLoop G targets2 []).
Qed.

(** X5: the mapping a traversal returns depends on the set of its roots
    alone: two traversals that end over the same reader and flags return the
    same mapping when their targets resolve to the same IDs, in whatever
    order and however often each is named, whatever the order of the map
    loops and whatever the bound on the iterations. *)
Theorem walk_result_of_root_set G fuel1 fuel2 orders1 orders2
    targets1 targets2 roots1 roots2 results1 results2 :
  targetLoop G targets1 [] = Ok roots1 ->
  targetLoop G targets2 [] = Ok roots2 ->
  (forall k, k ∈ roots1 <-> k ∈ roots2) ->
  WalkForTargetTypes G fuel1 orders1 targets1 = Some (Ok results1) ->
  WalkForTargetTypes G fuel2 orders2 targets2 = Some (Ok results2) ->
  results1 = results2.
Proof.
  intros Hroots1 Hroots2 Hsame
    (r1 & calls1 & Hr1 & Hrun1)%WalkForTargetTypes_Ok
    (r2 & calls2 & Hr2 & Hrun2)%WalkForTargetTypes_Ok.
  assert (r1 = roots1) as -> by congruence.
  assert (r2 = roots2) as -> by congruence.
  pose proof (queueLoop_lookup G roots1 orders1 _ _ _ Hrun1) as Hchar1.
  pose proof (queueLoop_lookup G roots2 orders2 _ _ _ Hrun2) as Hchar2.
  apply map_eq. intros k. apply option_eq. intros v.
  rewrite Hchar1, Hchar2.
  assert (reachable G roots1 k <-> reachable G roots2 k) as Hreach.
  { split; apply reachable_roots_subseteq; intros r; apply Hsame. }
  by rewrite Hreach.
Qed.

Lemma walk_result_of_root_set_witness :
  exists results,
    WalkForTargetTypes (Sample.globals Sample.foo false false) 10 (fun _ => O)
      ["struct:Foo"; "int"] = Some (Ok results) /\
    WalkForTargetTypes (Sample.globals Sample.foo false false) 7 (fun _ => 1%nat)
      ["int"; "Foo"; " int "] = Some (Ok results).
Proof.
  eexists. split; [vm_compute; reflexivity|].
  match goal with
  | |- ?walk = Some (Ok ?r) =>
      destruct walk as [[results2|p]|] eqn:Hwalk; [|discriminate..]
  end.
  do 2 f_equal. symmetry.
  eapply (walk_result_of_root_set (Sample.globals Sample.foo false false)
            10 7 (fun _ => O) (fun _ => 1%nat) ["struct:Foo"; "int"]
            ["int"; "Foo"; " int "] [2; 1] [1; 2; 1]);
    [reflexivity|reflexivity| |reflexivity|exact Hwalk].
  intros k. rewrite !elem_of_cons, !elem_of_nil. tauto.
Defined.

(** X6: the closure of two lists of targets taken together is the union of
    their closures. *)
Theorem walk_of_append_is_union G fuel fuel1 fuel2 orders orders1 orders2
    targets1 targets2 results results1 results2 :
  WalkForTargetTypes G fuel1 orders1 targets1 = Some (Ok results1) ->
  WalkForTargetTypes G fuel2 orders2 targets2 = Some (Ok results2) ->
  WalkForTargetTypes G fuel orders (targets1 ++ targets2) = Some (Ok results) ->
  results = results1 ∪ results2.
Proof.
  intros (roots1 & calls1 & Hr1 & Hrun1)%WalkForTargetTypes_Ok
         (roots2 & calls2 & Hr2 & Hrun2)%WalkForTargetTypes_Ok
         (roots & calls & Hr & Hrun)%WalkForTargetTypes_Ok.
  rewrite targetLoop_append, Hr1, Hr2 in Hr. injection Hr as <-.
  pose proof (queueLoop_lookup G _ _ _ _ _ Hrun1) as Hchar1.
  pose proof (queueLoop_lookup G _ _ _ _ _ Hrun2) as Hchar2.
  pose proof (queueLoop_lookup G _ _ _ _ _ Hrun) as Hchar.
  apply map_eq. intros k. apply option_eq. intros v.
  rewrite lookup_union_Some_raw, Hchar, Hchar1, Hchar2, reachable_app.
  split.
  - intros ([H1|H2] & Hv).
    + by left.
    + destruct (results1 !! k) as [w|] eqn:Hw.
      * left. apply Hchar1 in Hw as (Hreach & t & Ht & ->).
        destruct Hv as (t' & Ht' & ->). split; [done|]. exists t'.
        split; [done|]. congruence.
      * right. done.
  - intros [[H1 Hv]|[_ [H2 Hv]]]; split; auto.
Qed.

Lemma walk_of_append_is_union_witness :
  exists results1 results2,
    WalkForTargetTypes (Sample.globals Sample.arr false false) 10 (fun _ => O)
      ["arr_t"] = Some (Ok results1) /\
    WalkForTargetTypes (Sample.globals Sample.arr false false) 10 (fun _ => O)
      ["int"] = Some (Ok results2) /\
    WalkForTargetTypes (Sample.globals Sample.arr false false) 10 (fun _ => O)
      ["arr_t"; "int"] = Some (Ok (results1 ∪ results2)).
Proof.
  eexists. eexists. split; [vm_compute; reflexivity|].
  split; [vm_compute; reflexivity|].
  match goal with
  | |- ?walk = Some (Ok ?r) =>
      destruct walk as [[results|p]|] eqn:Hwalk; [|discriminate..]
  end.
  do 2 f_equal.
  eapply (walk_of_append_is_union (Sample.globals Sample.arr false false)
            10 10 10 (fun _ => O) (fun _ => O) (fun _ => O) ["arr_t"] ["int"]);
    [reflexivity|reflexivity|exact Hwalk].
Defined.

(** ** The calls of the converter *)

Lemma queueLoop_calls G orders fuel queue results calls results' calls' :
  queueLoop G fuel orders queue results calls = Some (Ok (results', calls')) ->
  (forall k, k ∈ calls <-> k ∈ dom results) ->
  (forall k, k ∈ calls' <-> k ∈ dom results') /\
  calls ++ queue `prefix_of` calls'.
Proof.
  revert queue results calls.
  induction fuel as [|fuel IH]; intros queue results calls Hrun Hcalls.
  - destruct queue; [|discriminate]. simpl in Hrun. injection Hrun as <- <-.
    by rewrite app_nil_r.
  - destruct queue as [|i queue].
    { simpl in Hrun. injection Hrun as <- <-. by rewrite app_nil_r. }
    simpl in Hrun.
    destruct (btf.TypeByID (reader G) i) as [t|]; [|discriminate].
    apply IH in Hrun as [Hkeys Hprefix].
    + split; [done|]. rewrite enqueueLoop_filter in Hprefix.
      etransitivity; [|exact Hprefix].
      rewrite <- app_assoc. simpl. apply prefix_app, prefix_cons.
      by apply prefix_app_r.
    + intros k. rewrite dom_insert_L, elem_of_app, list_elem_of_singleton,
        elem_of_union, elem_of_singleton. rewrite Hcalls. tauto.
Qed.

(** X7: every key of the mapping a traversal returns was handed to the
    converter at least once, and every ID handed to the converter is a key:
    no conversion is thrown away, and the converter was called at least as
    many times as the mapping has keys. *)
Theorem walk_calls_are_the_keys G fuel orders targetTypes results calls :
  WalkForTargetTypes_calls G fuel orders targetTypes = Some (Ok (results, calls)) ->
  (forall k, k ∈ calls <-> k ∈ dom results) /\
  (size results <= length calls)%nat.
Proof.
  unfold WalkForTargetTypes_calls.
  destruct (targetLoop G targetTypes []) as [roots|]; [|discriminate].
  intros Hrun. apply queueLoop_calls in Hrun as [Hkeys _].
  - split; [done|]. rewrite <- size_dom.
    replace (dom results) with (list_to_set calls : gset N).
    + apply size_list_to_set_le.
    + apply set_eq. intros k. by rewrite elem_of_list_to_set.
  - intros k. by rewrite dom_empty_L, elem_of_nil, elem_of_empty.
Qed.

Lemma walk_calls_are_the_keys_witness :
  exists results,
    WalkForTargetTypes_calls (Sample.globals Sample.arr false false) 10
      (fun _ => O) ["arr_t"] = Some (Ok (results, [4; 3; 2; 2])) /\
    (size results <= 4)%nat.
Proof.
  eexists. split; [vm_compute; reflexivity|].
  eapply proj2.
  eapply (walk_calls_are_the_keys (Sample.globals Sample.arr false false) 10
            (fun _ => O) ["arr_t"] _ [4; 3; 2; 2]).
  reflexivity.
Defined.

(** X8: the traversal is first in, first out from the roots on: the
    converter is called on the roots first, in the order of the targets, and
    on dependencies only after all of them. *)
Theorem walk_converts_roots_first G fuel orders targetTypes roots results calls :
  targetLoop G targetTypes [] = Ok roots ->
  WalkForTargetTypes_calls G fuel orders targetTypes = Some (Ok (results, calls)) ->
  roots `prefix_of` calls.
Proof.
  unfold WalkForTargetTypes_calls. intros ->.
  intros Hrun. apply queueLoop_calls in Hrun as [_ Hprefix]; [done|].
  intros k. by rewrite dom_empty_L, elem_of_nil, elem_of_empty.
Qed.

Lemma walk_converts_roots_first_witness :
  [1; 4] `prefix_of` [1; 4; 3; 2; 2].
Proof.
  eapply (walk_converts_roots_first (Sample.globals Sample.arr false false) 10
            (fun _ => O) ["int"; "arr_t"]); [reflexivity|].
  vm_compute. reflexivity.
Defined.

(** ** The dependencies of a converted node *)

Lemma GetTypeID_ext G1 G2 t :
  reader G1 = reader G2 -> isDereference G1 = isDereference G2 ->
  GetTypeID G1 t = GetTypeID G2 t.
Proof. intros Hr Hd. unfold GetTypeID, reader_TypeID. by rewrite Hr, Hd. Qed.

Lemma FuncProto_dependencies G order Return Params :
  GetDependencies G order (BTFTypeParser G (btf.FuncProto Return Params)) =
  GetTypeID G Return :: map (fun param => GetTypeID G (btf.FuncParam_Type param)) Params.
Proof.
  simpl. unfold BTFFuncProto_GetDependencies, BTFFuncProtoParser. simpl.
  rewrite !fold_left_snoc_map. simpl. by rewrite map_map.
Qed.

Lemma Datasec_dependencies G order Name Size Vars :
  GetDependencies G order (BTFTypeParser G (btf.Datasec Name Size Vars)) =
  map (fun v => GetTypeID G (btf.VarSecinfo_Type v)) Vars.
Proof.
  simpl. unfold BTFDatasec_GetDependencies, BTFDatasecParser. simpl.
  rewrite !fold_left_snoc_map. simpl. by rewrite map_map.
Qed.

Lemma members_dependencies_list G order Members :
  isAsMap G = false ->
  membersDependencies G order
    (if isAsMap G then Some (memberLoop G Members).1 else None)
    (if isAsMap G then None else Some (map (newStructMember G) Members)) =
  map (fun member => GetTypeID G (btf.Member_Type member)) Members.
Proof.
  intros HG. rewrite membersDependencies_as_list by done. rewrite HG. simpl.
  by rewrite map_map.
Qed.

Lemma members_dependencies_map G order Members d :
  isAsMap G = true ->
  d ∈ membersDependencies G order
        (if isAsMap G then Some (memberLoop G Members).1 else None)
        (if isAsMap G then None else Some (map (newStructMember G) Members)) ->
  exists member, member ∈ Members /\ d = GetTypeID G (btf.Member_Type member).
Proof.
  intros HG. rewrite membersDependencies_as_map by done. rewrite HG. simpl.
  rewrite rangeMap_Permutation.
  intros ([name e] & -> & Hin)%list_elem_of_fmap.
  apply elem_of_map_to_list, memberLoop_entry in Hin as (member & Hm & ->).
  by exists member.
Qed.

(** X9: the dependencies of a converted function prototype are the ID of
    its return type followed by those of its parameters in their order;
    those of a data section are the IDs of its variables in their order; and
    with the as-map flag unset those of a struct or union are the IDs of its
    members in the order of declaration, one for each member. *)
Theorem dependencies_in_declaration_order G order :
  (forall Return Params,
      GetDependencies G order (BTFTypeParser G (btf.FuncProto Return Params)) =
      GetTypeID G Return ::
        map (fun param => GetTypeID G (btf.FuncParam_Type param)) Params) /\
  (forall Name Size Vars,
      GetDependencies G order (BTFTypeParser G (btf.Datasec Name Size Vars)) =
      map (fun v => GetTypeID G (btf.VarSecinfo_Type v)) Vars) /\
  (isAsMap G = false ->
   forall Name Size Members,
      GetDependencies G order (BTFTypeParser G (btf.Struct Name Size Members)) =
      map (fun member => GetTypeID G (btf.Member_Type member)) Members /\
      GetDependencies G order (BTFTypeParser G (btf.Union Name Size Members)) =
      map (fun member => GetTypeID G (btf.Member_Type member)) Members).
Proof.
  split; [apply FuncProto_dependencies|]. split; [apply Datasec_dependencies|].
  intros HG Name Size Members. simpl.
  unfold BTFStruct_GetDependencies, BTFUnion_GetDependencies.
  destruct (BTFStructParser_fields G Name Size Members) as [-> ->].
  destruct (BTFUnionParser_fields G Name Size Members) as [-> ->].
  split; by apply members_dependencies_list.
Qed.

Lemma dependencies_in_declaration_order_witness :
  GetDependencies (Sample.globals Sample.pair false false) 0
    (BTFTypeParser (Sample.globals Sample.pair false false)
       (btf.Struct "S" 8 [Sample.member "b" 2; Sample.member "a" 1; Sample.member "c" 2]))
  = [2; 1; 2].
Proof.
  destruct (dependencies_in_declaration_order
              (Sample.globals Sample.pair false false) 0) as (_ & _ & Hmembers).
  destruct (Hmembers eq_refl "S" 8
              [Sample.member "b" 2; Sample.member "a" 1; Sample.member "c" 2])
    as [-> _].
  reflexivity.
Defined.

Lemma dependencies_as_map_subseteq G1 G2 order1 order2 t d :
  reader G1 = reader G2 -> isDereference G1 = isDereference G2 ->
  isAsMap G1 = true -> isAsMap G2 = false ->
  d ∈ GetDependencies G1 order1 (BTFTypeParser G1 t) ->
  d ∈ GetDependencies G2 order2 (BTFTypeParser G2 t).
Proof.
  intros Hr Hd H1 H2.
  assert (forall Members,
    d ∈ membersDependencies G1 order1
          (if isAsMap G1 then Some (memberLoop G1 Members).1 else None)
          (if isAsMap G1 then None else Some (map (newStructMember G1) Members)) ->
    d ∈ membersDependencies G2 order2
          (if isAsMap G2 then Some (memberLoop G2 Members).1 else None)
          (if isAsMap G2 then None else Some (map (newStructMember G2) Members)))
    as Hmembers.
  { intros Members (member & Hin & ->)%members_dependencies_map; [|done].
    rewrite members_dependencies_list by done.
    apply list_elem_of_fmap. exists member. split; [|done].
    by apply GetTypeID_ext. }
  destruct t as [|n s e|tg|ix el ne|Name Size Members|Name Size Members
                 |n s sg vs|n kd|n inn|inn|inn|inn|n pr ln|Return Params
                 |n inn ln|Name Size Vars|n s];
    try (simpl; unfold BTFArray_GetDependencies; simpl;
         by rewrite ?(GetTypeID_ext G1 G2) by done).
  - simpl. unfold BTFStruct_GetDependencies.
    destruct (BTFStructParser_fields G1 Name Size Members) as [-> ->].
    destruct (BTFStructParser_fields G2 Name Size Members) as [-> ->].
    apply Hmembers.
  - simpl. unfold BTFUnion_GetDependencies.
    destruct (BTFUnionParser_fields G1 Name Size Members) as [-> ->].
    destruct (BTFUnionParser_fields G2 Name Size Members) as [-> ->].
    apply Hmembers.
  - rewrite !FuncProto_dependencies. rewrite (GetTypeID_ext G1 G2) by done.
    intros Hin. apply elem_of_cons in Hin as [->|Hin]; [apply elem_of_cons; by left|].
    apply elem_of_cons. right.
    apply list_elem_of_fmap in Hin as (param & -> & Hin).
    apply list_elem_of_fmap. exists param. split; [|done]. by apply GetTypeID_ext.
  - rewrite !Datasec_dependencies.
    intros (v & -> & Hin)%list_elem_of_fmap.
    apply list_elem_of_fmap. exists v. split; [|done]. by apply GetTypeID_ext.
Qed.

(** X10: what the as-map flag does to the closure.  With the flag set the
    dependencies of a converted node are among those it has with the flag
    unset (a member that a later member of the same name shadows brings none
    in), and so the keys of the closure of some targets with the flag set
    are among the keys of their closure with the flag unset. *)
Theorem as_map_closure_subseteq G1 G2 :
  reader G1 = reader G2 -> isDereference G1 = isDereference G2 ->
  isAsMap G1 = true -> isAsMap G2 = false ->
  (forall order1 order2 t d,
      d ∈ GetDependencies G1 order1 (BTFTypeParser G1 t) ->
      d ∈ GetDependencies G2 order2 (BTFTypeParser G2 t)) /\
  (forall fuel1 fuel2 orders1 orders2 targetTypes results1 results2,
      WalkForTargetTypes G1 fuel1 orders1 targetTypes = Some (Ok results1) ->
      WalkForTargetTypes G2 fuel2 orders2 targetTypes = Some (Ok results2) ->
      dom results1 ⊆ dom results2).
Proof.
  intros Hr Hd H1 H2. split.
  { intros. by eapply dependencies_as_map_subseteq. }
  intros fuel1 fuel2 orders1 orders2 targetTypes results1 results2
    (roots1 & calls1 & Hr1 & Hrun1)%WalkForTargetTypes_Ok
    (roots2 & calls2 & Hr2 & Hrun2)%WalkForTargetTypes_Ok.
  rewrite (targetLoop_reader G2 G1) in Hr1 by done.
  assert (roots1 = roots2) as -> by congruence.
  pose proof (queueLoop_lookup G1 _ _ _ _ _ Hrun1) as Hchar1.
  pose proof (queueLoop_lookup G2 _ _ _ _ _ Hrun2) as Hchar2.
  assert (forall k, reachable G1 roots2 k -> reachable G2 roots2 k) as Hreach.
  { induction 1 as [k Hk|k d _ IH (t & Ht & Hin)]; [by apply reachable_root|].
    eapply reachable_step; [exact IH|]. exists t. split; [by rewrite <- Hr|].
    by eapply dependencies_as_map_subseteq. }
  intros k [v Hv]%elem_of_dom.
  apply Hchar1 in Hv as (Hk & t & Ht & _).
  apply elem_of_dom. exists (BTFTypeParser G2 t). apply Hchar2.
  split; [by apply Hreach|]. exists t. split; [by rewrite <- Hr|done].
Qed.

Lemma as_map_closure_subseteq_witness :
  exists results1 results2,
    WalkForTargetTypes (Sample.globals Sample2.shadowed false true) 10
      (fun _ => O) ["S"] = Some (Ok results1) /\
    WalkForTargetTypes (Sample.globals Sample2.shadowed false false) 10
      (fun _ => O) ["S"] = Some (Ok results2) /\
    dom results1 ⊆ dom results2 /\
    results1 !! 1 = None /\ is_Some (results2 !! 1).
Proof.
  eexists. eexists. split; [vm_compute; reflexivity|].
  split; [vm_compute; reflexivity|].
  split; [|split; [reflexivity|by eexists]].
  destruct (as_map_closure_subseteq
              (Sample.globals Sample2.shadowed false true)
              (Sample.globals Sample2.shadowed false false)
              eq_refl eq_refl eq_refl eq_refl) as [_ Hwalk].
  eapply (Hwalk 10%nat 10%nat (fun _ => O) (fun _ => O) ["S"]); reflexivity.
Defined.

(** ** The type IDs of the exported nodes *)

Lemma typeFields_dependencies G order t d :
  d ∈ typeFields (BTFTypeParser G t) ->
  d ∈ GetDependencies G order (BTFTypeParser G t) \/
  isElemTypeOf (BTFTypeParser G t) d.
Proof.
  assert (forall Members,
    d ∈ map BTFStructMember_Type
          (default [] (if isAsMap G then None
                       else Some (map (newStructMember G) Members))) ++
        map (fun entry : string * BTFStructMember => BTFStructMember_Type entry.2)
          (map_to_list
             (default ∅ (if isAsMap G then Some (memberLoop G Members).1
                         else None))) ->
    d ∈ membersDependencies G order
          (if isAsMap G then Some (memberLoop G Members).1 else None)
          (if isAsMap G then None else Some (map (newStructMember G) Members)))
    as Hmembers.
  { intros Members. destruct (isAsMap G) eqn:HG.
    - rewrite membersDependencies_as_map by done. simpl.
      by rewrite rangeMap_Permutation.
    - rewrite membersDependencies_as_list by done. simpl.
      by rewrite map_to_list_empty, app_nil_r. }
  destruct t as [|n s e|tg|ix el ne|Name Size Members|Name Size Members
                 |n s sg vs|n kd|n inn|inn|inn|inn|n pr ln|Return Params
                 |n inn ln|Name Size Vars|n s];
    try (simpl; by left).
  - simpl. unfold BTFArray_GetDependencies.
    intros [->|[->|[]%elem_of_nil]%elem_of_cons]%elem_of_cons.
    + left. apply elem_of_cons. by left.
    + right. by eexists.
  - simpl. unfold BTFStruct_GetDependencies.
    destruct (BTFStructParser_fields G Name Size Members) as [-> ->].
    left. by apply Hmembers.
  - simpl. unfold BTFUnion_GetDependencies.
    destruct (BTFUnionParser_fields G Name Size Members) as [-> ->].
    left. by apply Hmembers.
  - intros Hin. left. simpl. unfold BTFFuncProto_GetDependencies.
    rewrite fold_left_snoc_map. exact Hin.
  - intros Hin. left. simpl. unfold BTFDatasec_GetDependencies.
    rewrite fold_left_snoc_map. exact Hin.
Qed.

(** X11: the mapping of a traversal that ends is closed under the type IDs
    its nodes carry, but for the element types of arrays: every type ID in a
    field of an exported node of the mapping is itself a key of the mapping,
    or is the element type ID of that array node. *)
Theorem walk_result_holds_its_references G fuel orders targetTypes results k v d :
  WalkForTargetTypes G fuel orders targetTypes = Some (Ok results) ->
  results !! k = Some v ->
  d ∈ typeFields v ->
  d ∈ dom results \/ isElemTypeOf v d.
Proof.
  intros (roots & calls & Hroots & Hrun)%WalkForTargetTypes_Ok Hk Hd.
  pose proof (queueLoop_inv G roots orders _ _ _ _ _ _ Hrun (walkInv_init G roots))
    as [Hvalue Hdeps _ _].
  destruct (Hvalue k v Hk) as (t & Ht & ->).
  destruct (typeFields_dependencies G 0 t d Hd) as [Hin|Helem]; [left|by right].
  destruct (Hdeps k d) as [?|Hnil]; [| |done|by apply elem_of_nil in Hnil].
  - apply elem_of_dom. by eexists.
  - by exists t.
Qed.

Lemma walk_result_holds_its_references_witness :
  exists results,
    WalkForTargetTypes (Sample.globals Sample.arr false false) 10 (fun _ => O)
      ["arr_t"] = Some (Ok results) /\
    3 ∈ dom results /\ 1 ∉ dom results.
Proof.
  eexists. split; [vm_compute; reflexivity|]. split.
  - destruct (walk_result_holds_its_references
                (Sample.globals Sample.arr false false) 10 (fun _ => O)
                ["arr_t"] _ 4 _ 3 eq_refl eq_refl) as [Hin|(a & Ha & _)].
    + apply list_elem_of_singleton. reflexivity.
    + exact Hin.
    + discriminate Ha.
  - intros [v Hv]%elem_of_dom. discriminate Hv.
Defined.

(** X12: over a reader whose table is not empty, every type ID the converter
    writes into a field of an exported node is the ID of a node of the
    table: the full dump has an entry at that position. *)
Theorem exported_ids_are_table_ids G t d :
  btf.types (reader G) <> [] ->
  d ∈ typeFields (BTFTypeParser G t) ->
  is_Some (btf.TypeByID (reader G) d) /\
  is_Some (ReadAllBTFType G !! N.to_nat d).
Proof.
  intros Hne Hd.
  assert (0 ∈ validIDs G) as H0.
  { apply elem_of_validIDs. unfold btf.TypeByID.
    destruct (btf.types (reader G)); [done|]. by eexists. }
  assert (d ∈ validIDs G) as Hv.
  { destruct (typeFields_dependencies G 0 t d Hd) as [Hin|(a & Ha & ->)].
    - by eapply GetDependencies_valid.
    - destruct t; try discriminate. simpl in Ha. injection Ha as <-. simpl.
      by apply GetTypeID_valid. }
  apply elem_of_validIDs in Hv. split; [done|].
  destruct Hv as [n Hn]. rewrite ReadAllBTFType_lookup.
  unfold btf.TypeByID in Hn. rewrite Hn. by eexists.
Qed.

Lemma exported_ids_are_table_ids_witness :
  is_Some (btf.TypeByID (Sample.spec Sample.constInt) 0).
Proof.
  eapply proj1.
  apply (exported_ids_are_table_ids (Sample.globals Sample.constInt false false)
           (btf.Pointer 17) 0).
  - discriminate.
  - apply list_elem_of_singleton. reflexivity.
Defined.

(** ** The maps of the as-map shape *)

Lemma keyedLoop_size {K : Type} `{Countable K} {A B : Type}
    (key : A -> K) (f : A -> B) (l : list A) :
  size (keyedLoop key f l (∅, [])).1 = size (list_to_set (key <$> l) : gset K).
Proof.
  rewrite <- size_dom, keyedLoop_dom, dom_empty_L. f_equal. set_solver.
Qed.

Lemma keyedLoop_size_length {K : Type} `{Countable K} {A B : Type}
    (key : A -> K) (f : A -> B) (l : list A) :
  size (keyedLoop key f l (∅, [])).1 = length l <-> NoDup (key <$> l).
Proof.
  rewrite keyedLoop_size. split.
  - intros Hsize. destruct (decide (NoDup (key <$> l))) as [|Hdup]; [done|].
    apply size_list_to_set_lt in Hdup. rewrite length_fmap in Hdup. lia.
  - intros Hnd. rewrite size_list_to_set by done. apply length_fmap.
Qed.

(** X13: with the as-map flag set, the members map of a struct or union
    node has the names of the members as its keys, an entry sits under its
    own name and is the projection of a member, and the map has an entry for
    every member exactly when no two members share a name. *)
Theorem members_map_invariants G Name Size Members :
  isAsMap G = true ->
  exists m,
    BTFStruct_MembersMap (BTFStructParser G Name Size Members) = Some m /\
    BTFUnion_MembersMap (BTFUnionParser G Name Size Members) = Some m /\
    dom m = list_to_set (btf.Member_Name <$> Members) /\
    (forall name e, m !! name = Some e ->
       BTFStructMember_Name e = name /\
       exists member, member ∈ Members /\ e = newStructMember G member) /\
    (size m = length Members <-> NoDup (btf.Member_Name <$> Members)).
Proof.
  intros HG. exists (memberLoop G Members).1.
  destruct (BTFStructParser_fields G Name Size Members) as [-> _].
  destruct (BTFUnionParser_fields G Name Size Members) as [-> _].
  rewrite HG. split; [done|]. split; [done|]. split; [|split].
  - rewrite memberLoop_keyedLoop, keyedLoop_dom, dom_empty_L. set_solver.
  - intros name e He. split; [|by eapply memberLoop_entry].
    rewrite memberLoop_lookup in He.
    destruct (last _) as [member|] eqn:Hlast; [|discriminate].
    injection He as <-.
    apply last_Some_elem_of, list_elem_of_filter in Hlast. by destruct Hlast.
  - rewrite memberLoop_keyedLoop. apply keyedLoop_size_length.
Qed.

Lemma members_map_invariants_witness :
  exists m,
    BTFStruct_MembersMap
      (BTFStructParser (Sample.globals Sample.pair false true) "S" 8
         [Sample.member "a" 1; Sample.member "b" 2]) = Some m /\
    size m = 2%nat.
Proof.
  destruct (members_map_invariants (Sample.globals Sample.pair false true) "S" 8
              [Sample.member "a" 1; Sample.member "b" 2] eq_refl)
    as (m & Hm & _ & _ & _ & Hsize).
  exists m. split; [exact Hm|]. apply Hsize.
  apply NoDup_cons. split; [|apply NoDup_singleton].
  intros Hin%list_elem_of_singleton. discriminate Hin.
Defined.

(** X14: the values of an enum node.  With the as-map flag unset the list
    holds the projection of every declared value in the order of
    declaration.  With the flag set the keys of the map are the numeric
    values that occur, and the map has an entry for every declared value
    exactly when no two values have the same number: a value that repeats
    the number of another leaves one entry for both. *)
Theorem enum_values_shapes G Name Size Signed Values :
  (isAsMap G = false ->
     BTFEnum_Values (BTFEnumParser G Name Size Signed Values)
       = Some (map newEnumValue Values)) /\
  (isAsMap G = true ->
     exists m,
       BTFEnum_ValuesMap (BTFEnumParser G Name Size Signed Values) = Some m /\
       dom m = list_to_set (btf.EnumValue_Value <$> Values) /\
       (size m = length Values <-> NoDup (btf.EnumValue_Value <$> Values))).
Proof.
  destruct (BTFEnumParser_fields G Name Size Signed Values) as [-> ->].
  split; intros ->; [done|].
  exists (valueLoop Values).1. split; [done|]. split.
  - rewrite valueLoop_keyedLoop, keyedLoop_dom, dom_empty_L. set_solver.
  - rewrite valueLoop_keyedLoop. apply keyedLoop_size_length.
Qed.

Lemma enum_values_shapes_witness :
  BTFEnum_Values
    (BTFEnumParser (Sample.globals [] false false) "color" 4 false
       [Sample.value "RED" 0; Sample.value "ROUGE" 0])
  = Some [ {| BTFEnumValue_Name := "RED"; BTFEnumValue_Value := 0 |};
           {| BTFEnumValue_Name := "ROUGE"; BTFEnumValue_Value := 0 |} ] /\
  exists m,
    BTFEnum_ValuesMap
      (BTFEnumParser (Sample.globals [] false true) "color" 4 false
         [Sample.value "RED" 0; Sample.value "ROUGE" 0]) = Some m /\
    size m <> 2%nat.
Proof.
  split.
  - destruct (enum_values_shapes (Sample.globals [] false false) "color" 4 false
                [Sample.value "RED" 0; Sample.value "ROUGE" 0]) as [Hlist _].
    exact (Hlist eq_refl).
  - destruct (enum_values_shapes (Sample.globals [] false true) "color" 4 false
                [Sample.value "RED" 0; Sample.value "ROUGE" 0]) as [_ Hmap].
    destruct (Hmap eq_refl) as (m & Hm & _ & Hsize).
    exists m. split; [exact Hm|]. intros H2. apply Hsize in H2.
    apply NoDup_cons in H2 as [Hnin _]. apply Hnin.
    apply list_elem_of_singleton. reflexivity.
Defined.

(** ** Type names *)

Lemma GetTypeName_BTFTypeParser G t :
  GetTypeName (BTFTypeParser G t) =
  match t with
  | btf.Void => "void"
  | btf.Int _ _ _ => "int"
  | btf.Pointer _ => "pointer"
  | btf.Array _ _ _ => "array"
  | btf.Struct _ _ _ => "struct"
  | btf.Union _ _ _ => "union"
  | btf.Enum _ _ _ _ => "enum"
  | btf.Fwd _ _ => "fwd"
  | btf.Typedef _ _ => "typedef"
  | btf.Volatile _ => "volatile"
  | btf.Const _ => "const"
  | btf.Restrict _ => "restrict"
  | btf.Func _ _ _ => "func"
  | btf.FuncProto _ _ => "funcproto"
  | btf.Var _ _ _ => "var"
  | btf.Datasec _ _ _ => "datasec"
  | btf.Float _ _ => "float"
  end.
Proof.
  destruct t; try reflexivity; simpl.
  - unfold BTFStructParser. destruct (memberLoop G Members).
    by destruct (isAsMap G).
  - unfold BTFUnionParser. destruct (memberLoop G Members).
    by destruct (isAsMap G).
  - unfold BTFEnumParser. destruct (valueLoop Values).
    by destruct (isAsMap G).
Qed.

(** X15: the type name tells the category, whatever the flags: two
    converted nodes have the same type name exactly when the nodes they come
    from are of the same Go type. *)
Theorem type_name_tells_category G1 G2 t1 t2 :
  GetTypeName (BTFTypeParser G1 t1) = GetTypeName (BTFTypeParser G2 t2) <->
  Sample.sameCategory t1 t2 = true.
Proof.
  rewrite !GetTypeName_BTFTypeParser.
  destruct t1, t2; simpl; split; intros Heq; try reflexivity;
    discriminate Heq.
Qed.

(** X16: a category token that NameToBTFType accepts is the type name
    under which the nodes of the category it selects are exported, but for
    the tokens Datasec and Float, whose nodes are exported as datasec and
    float. *)
Theorem token_is_type_name G name zero :
  NameToBTFType name = Ok zero ->
  GetTypeName (BTFTypeParser G zero) = strings.TrimSpace name \/
  (strings.TrimSpace name = "Datasec" /\
   GetTypeName (BTFTypeParser G zero) = "datasec") \/
  (strings.TrimSpace name = "Float" /\
   GetTypeName (BTFTypeParser G zero) = "float").
Proof.
  unfold NameToBTFType. generalize (strings.TrimSpace name). intros tok.
  repeat match goal with
         | |- context [String.eqb tok ?s] =>
             destruct (String.eqb_spec tok s) as [->|?];
             [intros [= <-]; rewrite GetTypeName_BTFTypeParser; tauto|]
         end.
  discriminate.
Qed.

Lemma token_is_type_name_witness :
  GetTypeName (BTFTypeParser (Sample.globals [] false false)
                 (btf.Struct EmptyString 0 [])) = "struct".
Proof.
  destruct (token_is_type_name (Sample.globals [] false false) " struct "
              (btf.Struct EmptyString 0 []) eq_refl)
    as [Heq|[[Heq _]|[Heq _]]].
  - exact Heq.
  - discriminate Heq.
  - discriminate Heq.
Defined.

(** ** The dereference flag *)

Lemma underlying_no_wrapper s depth t :
  btf.deref s (btf.underlying s depth t) ≫= btf.isWrapper = None.
Proof.
  revert t. induction depth as [|depth IH]; intros t; simpl;
    destruct (btf.deref s t ≫= btf.isWrapper) as [inner|] eqn:Ht; try done.
  unfold btf.deref, btf.cycle. rewrite Nat2N.id.
  by rewrite (lookup_ge_None_2 (btf.types s) (length (btf.types s))).
Qed.

Lemma GetTypeID_no_wrapper G t n :
  isDereference G = true ->
  (forall n0, btf.TypeByID (reader G) 0 = Some n0 -> btf.isWrapper n0 = None) ->
  btf.TypeByID (reader G) (GetTypeID G t) = Some n ->
  btf.isWrapper n = None.
Proof.
  intros HG H0. unfold GetTypeID. rewrite HG.
  unfold btf.UnderlyingType, reader_TypeID, btf.TypeID_of.
  pose proof (underlying_no_wrapper (reader G)
                (length (btf.types (reader G))) t) as Hu.
  destruct (btf.deref (reader G) (btf.underlying (reader G) _ t))
    as [node|] eqn:Hnode; simpl in *.
  - destruct node; simpl; try discriminate Hu;
      try (unfold btf.TypeByID; unfold btf.deref in Hnode; rewrite Hnode;
           by intros [= <-]).
    apply H0.
  - apply H0.
Qed.

Lemma reachable_inv G roots k :
  reachable G roots k -> k ∈ roots \/ exists k', depends G k' k.
Proof. destruct 1 as [k Hk|k d _ Hd]; [by left|right; by exists k]. Qed.

(** X17: with the dereference flag set no ID the converter resolves is the
    ID of a const, volatile, restrict or typedef node, on a reader that has
    no such node under ID 0, where void is; and so the mapping of a traversal
    holds such a node only under the ID of a root. *)
Theorem dereference_skips_wrappers G :
  isDereference G = true ->
  (forall n0, btf.TypeByID (reader G) 0 = Some n0 -> btf.isWrapper n0 = None) ->
  (forall t n, btf.TypeByID (reader G) (GetTypeID G t) = Some n ->
               btf.isWrapper n = None) /\
  (forall fuel orders targetTypes roots results k v,
      targetLoop G targetTypes [] = Ok roots ->
      WalkForTargetTypes G fuel orders targetTypes = Some (Ok results) ->
      results !! k = Some v ->
      k ∈ roots \/
      GetTypeName v ∉ ["typedef"; "volatile"; "const"; "restrict"]).
Proof.
  intros HG H0. split; [intros t n; by apply GetTypeID_no_wrapper|].
  intros fuel orders targetTypes roots results k v Hroots
    (roots' & calls & Hroots' & Hrun)%WalkForTargetTypes_Ok Hk.
  assert (roots' = roots) as -> by congruence.
  apply (queueLoop_lookup G _ _ _ _ _ Hrun) in Hk as (Hreach & t & Ht & ->).
  apply reachable_inv in Hreach as [?|(k' & t' & _ & Hin)]; [by left|right].
  apply GetDependencies_GetTypeID in Hin as (ref & ->).
  pose proof (GetTypeID_no_wrapper G ref t HG H0 Ht) as Hw.
  rewrite GetTypeName_BTFTypeParser.
  destruct t; try discriminate Hw;
    rewrite !elem_of_cons, elem_of_nil; intros [?|[?|[?|[?|[]]]]]; discriminate.
Qed.

Lemma dereference_skips_wrappers_witness :
  exists results,
    WalkForTargetTypes (Sample.globals Sample2.wrapped true false) 10
      (fun _ => O) ["v"] = Some (Ok results) /\
    dom results = {[5; 4; 1]} /\
    GetTypeID (Sample.globals Sample2.wrapped true false) 3 = 1.
Proof.
  eexists. split; [vm_compute; reflexivity|]. split; [|reflexivity].
  destruct (dereference_skips_wrappers (Sample.globals Sample2.wrapped true false)
              eq_refl) as [_ Hwalk].
  { intros n0 [= <-]. reflexivity. }
  apply set_eq. intros k. rewrite elem_of_dom. split.
  - intros [v Hv].
    destruct (Hwalk 10%nat (fun _ => O) ["v"] [5] _ k v eq_refl eq_refl Hv)
      as [->%list_elem_of_singleton|Hname]; [set_solver|].
    destruct (decide (k = 4)) as [->|H4]; [set_solver|].
    destruct (decide (k = 1)) as [->|H1]; [set_solver|].
    destruct (decide (k = 5)) as [->|H5]; [set_solver|].
    exfalso. revert Hv.
    match goal with
    | |- ?m !! k = Some v -> False =>
        change (({[ 5 := BTFTypeParser (Sample.globals Sample2.wrapped true false)
                           (btf.Var "v" 4 "global");
                    4 := BTFTypeParser (Sample.globals Sample2.wrapped true false)
                           (btf.Pointer 3);
                    1 := BTFTypeParser (Sample.globals Sample2.wrapped true false)
                           (btf.Int "int" 4 "signed") ]}
                  : gmap N BTFType) !! k = Some v -> False)
    end.
    rewrite !lookup_insert_ne by done. by rewrite lookup_singleton_ne by done.
  - intros Hk.
    assert (k = 5 \/ k = 4 \/ k = 1) as [->|[->| ->]] by set_solver;
      by eexists.
Defined.

Lemma stripsTo_wrapper s t inner t' :
  btf.deref s t ≫= btf.isWrapper = Some inner ->
  stripsTo s inner t' -> stripsTo s t t'.
Proof. intros Ht [n Hn]. exists (S n). by eapply stripsN_step. Qed.

(** X18: with the dereference flag set a const, volatile, restrict or
    typedef node is transparent: a reference to it resolves to the ID its
    inner reference resolves to, when the chain of such nodes behind it
    ends. *)
Theorem dereference_sees_through_wrapper G t inner t' :
  isDereference G = true ->
  btf.deref (reader G) t ≫= btf.isWrapper = Some inner ->
  stripsTo (reader G) inner t' ->
  GetTypeID G t = GetTypeID G inner /\ GetTypeID G t = GetTypeID G t'.
Proof.
  intros HG Ht Hinner.
  pose proof (stripsTo_wrapper _ _ _ _ Ht Hinner) as Hs.
  assert (stripsTo (reader G) t' t') as Hend.
  { destruct Hinner as [n Hn]. exists 0%nat. apply stripsN_here.
    clear Ht Hs. induction Hn; auto. }
  unfold GetTypeID. rewrite HG.
  by rewrite (UnderlyingType_stripsTo _ _ _ Hs),
    (UnderlyingType_stripsTo _ _ _ Hinner), (UnderlyingType_stripsTo _ _ _ Hend).
Qed.

Lemma dereference_sees_through_wrapper_witness :
  GetTypeID (Sample.globals Sample2.wrapped true false) 3 =
  GetTypeID (Sample.globals Sample2.wrapped true false) 2.
Proof.
  eapply proj1.
  apply (dereference_sees_through_wrapper
           (Sample.globals Sample2.wrapped true false) 3 2 1);
    [reflexivity|reflexivity|].
  exists 1%nat. eapply stripsN_step; [reflexivity|].
  apply stripsN_here. reflexivity.
Defined.

(** ** White space around targets *)

Lemma trimRight_idempotent s :
  strings.trimRight (strings.trimRight s) = strings.trimRight s.
Proof.
  induction s as [|c s IH]; [done|]. simpl.
  destruct (strings.trimRight s) as [|c' r] eqn:Hr.
  - destruct (strings.asciiSpace c) eqn:Hc; [done|]. simpl. by rewrite Hc.
  - simpl in *. by rewrite IH.
Qed.

Lemma trimRight_head c s :
  strings.asciiSpace c = false ->
  exists r, strings.trimRight (String c s) = String c r.
Proof.
  intros Hc. simpl. destruct (strings.trimRight s); rewrite ?Hc; by eexists.
Qed.

Lemma trimLeft_head s :
  strings.trimLeft s = EmptyString \/
  exists c r, strings.trimLeft s = String c r /\ strings.asciiSpace c = false.
Proof.
  induction s as [|c s IH]; [by left|]. simpl.
  destruct (strings.asciiSpace c) eqn:Hc; [done|]. right. by exists c, s.
Qed.

Lemma TrimSpace_idempotent s :
  strings.TrimSpace (strings.TrimSpace s) = strings.TrimSpace s.
Proof.
  unfold strings.TrimSpace.
  destruct (trimLeft_head s) as [->|(c & r & -> & Hc)]; [done|].
  destruct (trimRight_head c r Hc) as [r' Hr']. rewrite Hr'.
  replace (strings.trimLeft (String c r')) with (String c r')
    by (simpl; by rewrite Hc).
  by rewrite <- Hr', trimRight_idempotent.
Qed.

(** X19: white space around a target and around its category token is
    ignored: a target and the same target without the white space around it
    name the same node or fail alike, a category token with white space
    around it selects the category of the bare token, and a list of targets
    and its trimmed copy resolve to the same queue. *)
Theorem targets_are_trimmed G :
  (forall name, findTarget G (strings.TrimSpace name) = findTarget G name) /\
  (forall name, NameToBTFType (strings.TrimSpace name) = NameToBTFType name) /\
  (forall targetTypes,
      targetLoop G (map strings.TrimSpace targetTypes) [] =
      targetLoop G targetTypes []).
Proof.
  assert (forall name, findTarget G (strings.TrimSpace name) = findTarget G name)
    as Hfind.
  { intros name. unfold findTarget. by rewrite TrimSpace_idempotent. }
  split; [exact Hfind|]. split.
  - intros name. unfold NameToBTFType. by rewrite TrimSpace_idempotent.
  - intros targetTypes. generalize (@nil N).
    induction targetTypes as [|name rest IH]; intros queue; simpl; [done|].
    rewrite Hfind. destruct (findTarget G name); [apply IH|done].
Qed.

(** ** The queue *)



(** X21: targets whose nodes have no dependencies give a mapping with the
    roots as its only keys. *)
Theorem walk_of_leaves G fuel orders targetTypes roots results :
  targetLoop G targetTypes [] = Ok roots ->
  WalkForTargetTypes G fuel orders targetTypes = Some (Ok results) ->
  (forall k t, k ∈ roots -> btf.TypeByID (reader G) k = Some t ->
               GetDependencies G 0 (BTFTypeParser G t) = []) ->
  dom results = list_to_set roots.
Proof.
  intros Hroots (roots' & calls & Hroots' & Hrun)%WalkForTargetTypes_Ok Hleaf.
  assert (roots' = roots) as -> by congruence.
  pose proof (queueLoop_lookup G _ _ _ _ _ Hrun) as Hchar.
  pose proof (queueLoop_inv G roots orders _ _ _ _ _ _ Hrun (walkInv_init G roots))
    as [_ _ _ Hin].
  assert (forall k, reachable G roots k -> k ∈ roots) as Hreach.
  { induction 1 as [k Hk|k d _ IH (t & Ht & Hd)]; [done|].
    rewrite (Hleaf k t IH Ht) in Hd. by apply elem_of_nil in Hd. }
  apply set_eq. intros k. rewrite elem_of_list_to_set. split.
  - intros [v Hv]%elem_of_dom. apply Hreach. by apply Hchar in Hv as [? _].
  - intros Hk. destruct (Hin k Hk) as [?|Hnil]; [done|].
    by apply elem_of_nil in Hnil.
Qed.

Lemma walk_of_leaves_witness :
  exists results,
    WalkForTargetTypes (Sample.globals Sample.arr false false) 10 (fun _ => O)
      ["int"; "__ARRAY_SIZE_TYPE__"] = Some (Ok results) /\
    dom results = list_to_set [1; 2].
Proof.
  eexists. split; [vm_compute; reflexivity|].
  eapply (walk_of_leaves (Sample.globals Sample.arr false false) 10 (fun _ => O)
            ["int"; "__ARRAY_SIZE_TYPE__"]); [reflexivity|reflexivity|].
  intros k t [->|[->|[]%elem_of_nil]%elem_of_cons]%elem_of_cons [= <-];
    reflexivity.
Defined.
